(** * BetterJSONStorage: a model of the write-back storage session

    The development follows [src/BetterJSONStorage/BetterJSONStorage.py].
    The class keeps a document in memory, registers the hash of its path in
    a class-level set, and starts a thread that compresses and writes the
    document through a file handle whenever the [_changed] flag is raised.

    The two threads of a session (the caller and the writer started by
    [Thread.start_new_thread]) are modelled by a labelled step function on
    the state of the whole process; every step is one statement of the
    source. *)

From Stdlib Require Import ZArith Lia.
From stdpp Require Import base option list strings gmap sets.

Local Open Scope string_scope.
Local Open Scope list_scope.

(** ** Bytes, paths and the file system *)

Abbreviation byte := Byte.byte.
Abbreviation bytes := (list Byte.byte).

(** A [pathlib.Path] is the list of its parts; [[]] is [Path()], the
    current directory. *)
Abbreviation path := (list string).

Inductive node :=
| Dir
| File (content : bytes).

Abbreviation filesystem := (gmap (list string) node).

(** [os.stat]: the current directory always exists. *)
Definition stat (fs : filesystem) (p : path) : option node :=
  match p with
  | [] => Some Dir
  | _ => fs !! p
  end.

(** [path.exists()] and [path.is_file()]. *)
Definition exists_ (fs : filesystem) (p : path) : bool :=
  match stat fs p with Some _ => true | None => false end.

Definition is_file (fs : filesystem) (p : path) : bool :=
  match stat fs p with Some (File _) => true | _ => false end.

(** [path.parent]. *)
Definition parent (p : path) : path := removelast p.

(** The non-empty prefixes of a path, shortest first. *)
Fixpoint prefixes_from (acc d : path) : list path :=
  match d with
  | [] => []
  | x :: d' => (acc ++ [x]) :: prefixes_from (acc ++ [x]) d'
  end.

(** [d.mkdir(parents=True, exist_ok=True)]: every missing ancestor is
    created; an ancestor that is a regular file makes the call fail, after
    the directories above it have been created. *)
Fixpoint mkdir_each (qs : list path) (fs : filesystem) : filesystem * bool :=
  match qs with
  | [] => (fs, true)
  | q :: qs' =>
      match stat fs q with
      | Some Dir => mkdir_each qs' fs
      | Some (File _) => (fs, false)
      | None => mkdir_each qs' (<[q := Dir]> fs)
      end
  end.

Definition mkdir_parents (d : path) (fs : filesystem) : filesystem * bool :=
  mkdir_each (prefixes_from [] d) fs.

(** Writing [b] at offset [pos] of a file, as a raw file descriptor does:
    bytes in range are overwritten, a gap is filled with zeros. *)
Definition write_at (content : bytes) (pos : nat) (b : bytes) : bytes :=
  take pos content ++ replicate (pos - length content) Byte.x00
    ++ b ++ drop (pos + length b) content.

(** ** Exceptions *)

Inductive exn :=
| AttributeError_access_mode   (* 'access_mode is not one of ("r", "r+")' *)
| AttributeError_exists        (* 'A BetterJSONStorage object already exists with path' *)
| AttributeError_slot (name : string) (* a slot of __slots__ read before it was assigned *)
| FileNotFoundError_missing    (* "File can't be found, use access_mode='r+'" *)
| FileNotFoundError_not_file   (* 'path does not lead to a file' *)
| PermissionError              (* 'Storage is openend as read only' *)
| CodecError                   (* raised by orjson or blosc2 *)
| OSError                      (* raised by the file system *)
| ValueError_closed.           (* I/O operation on closed file *)

(** How a call ends: it returns, raises, or never returns. *)
Inductive outcome (A : Type) :=
| Ret (a : A)
| Raise (e : exn)
| Hang.
Arguments Ret {A} a.
Arguments Raise {A} e.
Arguments Hang {A}.

(** Reading a slot declared in [__slots__]. *)
Definition slot {A : Type} (name : string) (o : option A) : outcome A :=
  match o with
  | Some a => Ret a
  | None => Raise (AttributeError_slot name)
  end.

(** ** The codecs

    [orjson] and [blosc2] are not part of the repository: they are taken as
    an interface.  [None] stands for a raised exception.  The value handled
    by [dumps] and [loads] is the content of the [_data] slot, an
    [Optional[Mapping]]: [None] is Python's [None]. *)
Class Codec (Doc : Type) := {
  dumps : option Doc → option bytes;
  loads : bytes → option (option Doc);
  compress : bytes → option bytes;
  decompress : bytes → option bytes
}.

(** ** File handles

    A buffered binary writer: [h_buf] holds the bytes accepted by [write]
    that have not reached the file yet, [h_pos] is the offset of the
    underlying descriptor. *)
Record handle := Handle {
  h_path : path;
  h_closed : bool;
  h_buf : bytes;
  h_pos : nat
}.

(** [path.open('wb')] and [path.open('wb+')] on a path whose parent exists:
    the file is created or truncated. *)
Definition open_wb (p : path) (fs : filesystem) : filesystem * handle :=
  (<[p := File []]> fs, Handle p false [] 0).

(** [handle.write(b)] on an open handle. *)
Definition handle_write (b : bytes) (h : handle) : handle :=
  Handle (h_path h) (h_closed h) (h_buf h ++ b) (h_pos h).

(** The first [n] buffered bytes reach the file. *)
Definition spill (n : nat) (h : handle) (fs : filesystem) : option (filesystem * handle) :=
  match fs !! h_path h with
  | Some (File c) =>
      Some (<[h_path h := File (write_at c (h_pos h) (take n (h_buf h)))]> fs,
            Handle (h_path h) (h_closed h) (drop n (h_buf h))
                   (h_pos h + length (take n (h_buf h))))
  | _ => None
  end.

(** [handle.flush()]: the whole buffer reaches the file. *)
Definition handle_flush (h : handle) (fs : filesystem) : outcome (filesystem * handle) :=
  if h_closed h then Raise ValueError_closed
  else match spill (length (h_buf h)) h fs with
       | Some r => Ret r
       | None => Raise OSError
       end.

(** [handle.close()]: flushes, then closes; closing twice is allowed. *)
Definition handle_close (h : handle) (fs : filesystem) : outcome (filesystem * handle) :=
  if h_closed h then Ret (fs, h)
  else match spill (length (h_buf h)) h fs with
       | Some (fs', h') => Ret (fs', Handle (h_path h') true (h_buf h') (h_pos h'))
       | None => Raise OSError
       end.

(** ** Sessions and the process *)

(** The program counter of the thread running [__file_writer]. *)
Inductive writer_pc :=
| WAcquire      (* self._shutdown_lock.acquire() *)
| WLoop         (* while self._running: *)
| WTest         (* if self._changed: *)
| WClear        (* self._changed = False *)
| WFlush        (* self._handle.write(compress(dumps(self._data))) *)
| WRelease      (* self._shutdown_lock.release() *)
| WExited       (* the function returned *)
| WCrashed (e : exn). (* an exception ended the thread *)

(** The statements of [close], in order. *)
Inductive close_pc :=
| CloseSpin     (* while self._changed: ... *)
| CloseStop     (* self._running = False *)
| CloseAcquire  (* self._shutdown_lock.acquire() *)
| CloseFlush    (* self._handle.flush() *)
| CloseHandle   (* self._handle.close() *)
| CloseDiscard. (* self.__class__._paths.discard(self._hash) *)

(** Where the caller stands inside a method that takes several steps. *)
Inductive call_pc :=
| WriteSetChanged            (* write: at self._changed = True *)
| Closing (ph : close_pc).   (* close: at statement ph *)

Section Storage.
Context {Doc : Type} {codec : Codec Doc}.

(** Python's [hash] on paths. *)
Variable hash : path → Z.

(** An instance: its slots (a slot is [None] until it is assigned) and
    the thread started at the end of [__init__], if any. *)
Record session := Session {
  _hash : Z;
  _access_mode : option string;
  _path : option path;
  _data : option (option Doc);
  _changed : bool;
  _running : bool;
  _shutdown_lock : bool;
  _handle : option handle;
  writer : option writer_pc
}.

Definition set_access_mode (m : string) (s : session) : session :=
  Session (_hash s) (Some m) (_path s) (_data s) (_changed s) (_running s)
          (_shutdown_lock s) (_handle s) (writer s).
Definition set_path (p : path) (s : session) : session :=
  Session (_hash s) (_access_mode s) (Some p) (_data s) (_changed s) (_running s)
          (_shutdown_lock s) (_handle s) (writer s).
Definition set_data (v : option Doc) (s : session) : session :=
  Session (_hash s) (_access_mode s) (_path s) (Some v) (_changed s) (_running s)
          (_shutdown_lock s) (_handle s) (writer s).
Definition set_changed (b : bool) (s : session) : session :=
  Session (_hash s) (_access_mode s) (_path s) (_data s) b (_running s)
          (_shutdown_lock s) (_handle s) (writer s).
Definition set_running (b : bool) (s : session) : session :=
  Session (_hash s) (_access_mode s) (_path s) (_data s) (_changed s) b
          (_shutdown_lock s) (_handle s) (writer s).
Definition set_lock (b : bool) (s : session) : session :=
  Session (_hash s) (_access_mode s) (_path s) (_data s) (_changed s) (_running s)
          b (_handle s) (writer s).
Definition set_handle (h : handle) (s : session) : session :=
  Session (_hash s) (_access_mode s) (_path s) (_data s) (_changed s) (_running s)
          (_shutdown_lock s) (Some h) (writer s).
Definition set_writer (w : writer_pc) (s : session) : session :=
  Session (_hash s) (_access_mode s) (_path s) (_data s) (_changed s) (_running s)
          (_shutdown_lock s) (_handle s) (Some w).

(** The process: the class attribute [_paths], the file system, the
    instances that were constructed, and the method the caller is in.
    There is one caller thread: it is inside at most one method at a
    time, [read], [load] and the constructor being single steps. *)
Record process := Process {
  _paths : gset Z;
  disk : gmap (list string) node;
  heap : list session;
  caller : option (nat * call_pc)
}.

Definition set_paths (ps : gset Z) (σ : process) : process :=
  Process ps (disk σ) (heap σ) (caller σ).
Definition set_disk (fs : filesystem) (σ : process) : process :=
  Process (_paths σ) fs (heap σ) (caller σ).
Definition set_heap (ss : list session) (σ : process) : process :=
  Process (_paths σ) (disk σ) ss (caller σ).
Definition set_caller (c : option (nat * call_pc)) (σ : process) : process :=
  Process (_paths σ) (disk σ) (heap σ) c.

(** *** [read], [load] *)

Definition read (self : session) : outcome (option Doc) :=
  slot "_data" (_data self).

(** [loads(decompress(db_bytes))]. *)
Definition decode (b : bytes) : option (option Doc) :=
  decompress b ≫= loads.

(** [compress(dumps(data))]. *)
Definition encode (v : option Doc) : option bytes :=
  dumps v ≫= compress.

Definition load (fs : filesystem) (self : session) : outcome session :=
  match slot "_path" (_path self) with
  | Ret p =>
      match stat fs p with
      | Some (File db_bytes) =>
          match db_bytes with
          | _ :: _ =>
              match decode db_bytes with
              | Some v => Ret (set_data v self)
              | None => Raise CodecError
              end
          | [] => Ret (set_data None self)
          end
      | _ => Raise OSError
      end
  | Raise e => Raise e
  | Hang => Hang
  end.

(** *** [close] *)

Inductive progress (A : Type) :=
| Blocked             (* the statement waits *)
| Continue (a : A)    (* the statement was executed *)
| Throws (e : exn).   (* the statement raised, without effect *)
Arguments Blocked {A}.
Arguments Continue {A} a.
Arguments Throws {A} e.

Definition close_phase (ph : close_pc) (σ : process) (self : session)
  : progress (process * session) :=
  match ph with
  | CloseSpin => if _changed self then Blocked else Continue (σ, self)
  | CloseStop => Continue (σ, set_running false self)
  | CloseAcquire =>
      if _shutdown_lock self then Blocked else Continue (σ, set_lock true self)
  | CloseFlush =>
      match slot "_handle" (_handle self) with
      | Ret h =>
          match handle_flush h (disk σ) with
          | Ret (fs, h') => Continue (set_disk fs σ, set_handle h' self)
          | Raise e => Throws e
          | Hang => Blocked
          end
      | Raise e => Throws e
      | Hang => Blocked
      end
  | CloseHandle =>
      match slot "_handle" (_handle self) with
      | Ret h =>
          match handle_close h (disk σ) with
          | Ret (fs, h') => Continue (set_disk fs σ, set_handle h' self)
          | Raise e => Throws e
          | Hang => Blocked
          end
      | Raise e => Throws e
      | Hang => Blocked
      end
  | CloseDiscard => Continue (set_paths (_paths σ ∖ {[ _hash self ]}) σ, self)
  end.

Definition close_next (ph : close_pc) : option close_pc :=
  match ph with
  | CloseSpin => Some CloseStop
  | CloseStop => Some CloseAcquire
  | CloseAcquire => Some CloseFlush
  | CloseFlush => Some CloseHandle
  | CloseHandle => Some CloseDiscard
  | CloseDiscard => None
  end.

Definition close_body : list close_pc :=
  [CloseSpin; CloseStop; CloseAcquire; CloseFlush; CloseHandle; CloseDiscard].

(** [close] run by a caller that no other thread interferes with. *)
Fixpoint run_close (phs : list close_pc) (σ : process) (self : session)
  : process * outcome session :=
  match phs with
  | [] => (σ, Ret self)
  | ph :: phs' =>
      match close_phase ph σ self with
      | Blocked => (σ, Hang)
      | Continue (σ', self') => run_close phs' σ' self'
      | Throws e => (σ, Raise e)
      end
  end.

Definition close (σ : process) (self : session) : process * outcome session :=
  run_close close_body σ self.

(** *** Construction: [__new__] and [__init__] *)

Definition __new__ (p : path) (σ : process) : outcome process :=
  let h := hash p in
  if bool_decide (h ∈ _paths σ) then Raise AttributeError_exists
  else Ret (set_paths (_paths σ ∪ {[ h ]}) σ).

(** The instance after the flags and [_hash] have been assigned. *)
Definition fresh (h : Z) : session :=
  Session h None None None false true false None None.

(** [self.close()] followed by [raise e]. *)
Definition close_and_raise (e : exn) (σ : process) (self : session)
  : process * outcome session :=
  match close σ self with
  | (σ', Ret _) => (σ', Raise e)
  | (σ', Raise e') => (σ', Raise e')
  | (σ', Hang) => (σ', Hang)
  end.

Definition mode_ok (access_mode : string) : bool :=
  bool_decide (access_mode = "r") || bool_decide (access_mode = "r+").

(** [path] is a [pathlib.Path] by its type, so the [isinstance] check
    passes.  The handle opened with ['wb+'] is dropped when [_handle] is
    assigned again; nothing was written through it. *)
Definition __init__ (p : path) (access_mode : string) (σ : process)
  : process * outcome session :=
  let self := fresh (hash p) in
  if negb (mode_ok access_mode)
  then close_and_raise AttributeError_access_mode σ self
  else
    let created :=
      if exists_ (disk σ) p then (σ, Ret self)
      else if bool_decide (access_mode = "r")
      then close_and_raise FileNotFoundError_missing σ self
      else match mkdir_parents (parent p) (disk σ) with
           | (fs, true) =>
               let '(fs', h) := open_wb p fs in
               (set_disk fs' σ, Ret (set_handle h self))
           | (fs, false) => (set_disk fs σ, Raise OSError)
           end in
    match created with
    | (σ1, Ret self1) =>
        if negb (is_file (disk σ1) p)
        then close_and_raise FileNotFoundError_not_file σ1 self1
        else
          let '(fs2, h) := open_wb p (disk σ1) in
          let σ2 := set_disk fs2 σ1 in
          let self2 := set_path p (set_access_mode access_mode (set_handle h self1)) in
          match load (disk σ2) self2 with
          | Ret self3 => (σ2, Ret (set_writer WAcquire self3))
          | Raise e => (σ2, Raise e)
          | Hang => (σ2, Hang)
          end
    | r => r
    end.

(** The call [BetterJSONStorage(path, access_mode)]; the new instance is
    returned as its index in the heap. *)
Definition BetterJSONStorage (p : path) (access_mode : string) (σ : process)
  : process * outcome nat :=
  match __new__ p σ with
  | Ret σ1 =>
      match __init__ p access_mode σ1 with
      | (σ2, Ret self) => (set_heap (heap σ2 ++ [self]) σ2, Ret (length (heap σ2)))
      | (σ2, Raise e) => (σ2, Raise e)
      | (σ2, Hang) => (σ2, Hang)
      end
  | Raise e => (σ, Raise e)
  | Hang => (σ, Hang)
  end.

(** *** [write] *)

(** The guard and the first assignment of [write]. *)
Definition write_data (data : option Doc) (self : session) : outcome session :=
  match slot "_access_mode" (_access_mode self) with
  | Ret m =>
      if bool_decide (m = "r+") then Ret (set_data data self)
      else Raise PermissionError
  | Raise e => Raise e
  | Hang => Hang
  end.

(** [write] run without interference. *)
Definition write (data : option Doc) (self : session) : outcome session :=
  match write_data data self with
  | Ret self' => Ret (set_changed true self')
  | r => r
  end.

(** *** The writer thread *)

Inductive event :=
| Tau                            (* an internal step *)
| Returned                       (* the call of the caller returned *)
| Raised (e : exn)               (* the call of the caller raised *)
| Flushed (i : nat) (b : bytes)  (* the writer of instance i wrote b to its handle *)
| Crashed (i : nat) (e : exn).   (* the writer of instance i died *)

(** One statement of [__file_writer] on instance [i]. *)
Definition writer_step (i : nat) (self : session) : option (session * event) :=
  match writer self with
  | Some WAcquire =>
      if _shutdown_lock self then None
      else Some (set_writer WLoop (set_lock true self), Tau)
  | Some WLoop =>
      Some (set_writer (if _running self then WTest else WRelease) self, Tau)
  | Some WTest =>
      Some (set_writer (if _changed self then WClear else WLoop) self, Tau)
  | Some WClear =>
      Some (set_writer WFlush (set_changed false self), Tau)
  | Some WFlush =>
      match _handle self, _data self with
      | None, _ =>
          let e := AttributeError_slot "_handle" in
          Some (set_writer (WCrashed e) self, Crashed i e)
      | Some _, None =>
          let e := AttributeError_slot "_data" in
          Some (set_writer (WCrashed e) self, Crashed i e)
      | Some h, Some v =>
          match encode v with
          | None => Some (set_writer (WCrashed CodecError) self, Crashed i CodecError)
          | Some b =>
              if h_closed h
              then Some (set_writer (WCrashed ValueError_closed) self,
                         Crashed i ValueError_closed)
              else Some (set_writer WLoop (set_handle (handle_write b h) self),
                         Flushed i b)
          end
      end
  | Some WRelease => Some (set_writer WExited (set_lock false self), Tau)
  | Some WExited | Some (WCrashed _) | None => None
  end.

(** [self._handle.write(...)] raising [OSError]: the payload was
    computed, the handle is open, and the operating system refuses the
    bytes (the device is full, the descriptor has gone bad).  The
    exception leaves the thread function as one raised by [dumps] or
    [compress] does. *)
Definition writer_fault (i : nat) (self : session) : option (session * event) :=
  match writer self, _handle self, _data self with
  | Some WFlush, Some h, Some v =>
      match encode v with
      | Some _ =>
          if h_closed h then None
          else Some (set_writer (WCrashed OSError) self, Crashed i OSError)
      | None => None
      end
  | _, _, _ => None
  end.

(** *** Steps of the process *)

Inductive call :=
| COpen (p : path) (access_mode : string)  (* BetterJSONStorage(p, access_mode) *)
| CWrite (i : nat) (data : option Doc)     (* instance i: write(data) *)
| CLoad (i : nat)                          (* instance i: load() *)
| CClose (i : nat).                        (* instance i: close() *)

(** The buffered writer of a handle may pass its bytes on to the file at
    any time, not only on [flush] and [close]: [Spill] covers every such
    behaviour.  The operating system may refuse the bytes that the
    writer thread hands to the handle: [Refuse] is that statement
    raising. *)
Inductive label :=
| Call (c : call)        (* the caller enters a method *)
| Main                   (* the caller executes the next statement of its method *)
| Writer (i : nat)       (* the writer thread of instance i executes a statement *)
| Spill (i n : nat)      (* n buffered bytes of the handle of instance i reach the file *)
| Refuse (i : nat).      (* the write of the writer thread of instance i raises OSError *)

Definition store (i : nat) (self : session) (σ : process) : process :=
  set_heap (<[i := self]> (heap σ)) σ.

Definition call_step (c : call) (σ : process) : option (process * event) :=
  match c with
  | COpen p access_mode =>
      match BetterJSONStorage p access_mode σ with
      | (σ', Ret _) => Some (σ', Returned)
      | (σ', Raise e) => Some (σ', Raised e)
      | (_, Hang) => None
      end
  | CWrite i data =>
      self ← heap σ !! i;
      match write_data data self with
      | Ret self' => Some (set_caller (Some (i, WriteSetChanged)) (store i self' σ), Tau)
      | Raise e => Some (σ, Raised e)
      | Hang => None
      end
  | CLoad i =>
      self ← heap σ !! i;
      match load (disk σ) self with
      | Ret self' => Some (store i self' σ, Returned)
      | Raise e => Some (σ, Raised e)
      | Hang => None
      end
  | CClose i =>
      _ ← heap σ !! i;
      Some (set_caller (Some (i, Closing CloseSpin)) σ, Tau)
  end.

Definition main_step (i : nat) (pc : call_pc) (self : session) (σ : process)
  : option (process * event) :=
  match pc with
  | WriteSetChanged =>
      Some (set_caller None (store i (set_changed true self) σ), Returned)
  | Closing ph =>
      match close_phase ph σ self with
      | Blocked => None
      | Continue (σ', self') =>
          match close_next ph with
          | Some ph' => Some (set_caller (Some (i, Closing ph')) (store i self' σ'), Tau)
          | None => Some (set_caller None (store i self' σ'), Returned)
          end
      | Throws e => Some (set_caller None σ, Raised e)
      end
  end.

Definition step (l : label) (σ : process) : option (process * event) :=
  match l with
  | Call c =>
      match caller σ with
      | None => call_step c σ
      | Some _ => None
      end
  | Main =>
      '(i, pc) ← caller σ;
      self ← heap σ !! i;
      main_step i pc self σ
  | Writer i =>
      self ← heap σ !! i;
      '(self', ev) ← writer_step i self;
      Some (store i self' σ, ev)
  | Spill i n =>
      self ← heap σ !! i;
      h ← _handle self;
      if h_closed h then None
      else '(fs, h') ← spill n h (disk σ);
           Some (set_disk fs (store i (set_handle h' self) σ), Tau)
  | Refuse i =>
      self ← heap σ !! i;
      '(self', ev) ← writer_fault i self;
      Some (store i self' σ, ev)
  end.

(** A schedule is run from left to right; the events are collected. *)
Fixpoint run (ls : list label) (σ : process) : option (process * list event) :=
  match ls with
  | [] => Some (σ, [])
  | l :: ls' =>
      '(σ1, ev) ← step l σ;
      '(σ2, evs) ← run ls' σ1;
      Some (σ2, ev :: evs)
  end.

(** The process at start-up, on a given file system. *)
Definition boot (fs : filesystem) : process := Process ∅ fs [] None.

Inductive reachable : process → Prop :=
| reachable_boot fs : reachable (boot fs)
| reachable_step σ l σ' ev :
    reachable σ → step l σ = Some (σ', ev) → reachable σ'.


(** ** Notions used to state the properties *)

Implicit Types (σ : process) (self s : session) (p : path).

(** What a successful [__init__] leaves behind. *)
Definition constructed p (access_mode : string) : session :=
  Session (hash p) (Some access_mode) (Some p) (Some None) false true false
          (Some (Handle p false [] 0)) (Some WAcquire).

(** [__init__] by cases on the access mode and on what the path leads
    to.  Each [self.close()] of the failure branches runs on an instance
    without handle, so it raises before the intended exception. *)
Definition init_result p (access_mode : string) σ : process * outcome session :=
  if negb (mode_ok access_mode)
  then (σ, Raise (AttributeError_slot "_handle"))
  else match stat (disk σ) p with
       | None =>
           if bool_decide (access_mode = "r")
           then (σ, Raise (AttributeError_slot "_handle"))
           else match mkdir_parents (parent p) (disk σ) with
                | (fs, true) =>
                    (set_disk (<[p := File []]> (<[p := File []]> fs)) σ,
                     Ret (constructed p access_mode))
                | (fs, false) => (set_disk fs σ, Raise OSError)
                end
       | Some (File _) =>
           (set_disk (<[p := File []]> (disk σ)) σ, Ret (constructed p access_mode))
       | Some Dir => (σ, Raise (AttributeError_slot "_handle"))
       end.

(** Regular files stay regular files. *)
Definition files_kept (fs fs' : filesystem) : Prop :=
  ∀ q c, fs !! q = Some (File c) → ∃ c', fs' !! q = Some (File c').

(** The writer holds the shutdown lock from its [acquire] to its
    [release], and for ever if it died in between. *)
Definition holds_lock (w : option writer_pc) : bool :=
  match w with
  | Some (WLoop | WTest | WClear | WFlush | WRelease | WCrashed _) => true
  | Some (WAcquire | WExited) | None => false
  end.

(** The writer is between the test of [_changed] and the write. *)
Definition flushing (w : option writer_pc) : bool :=
  match w with
  | Some (WClear | WFlush) => true
  | _ => false
  end.

(** The handle of an instance is assigned and not closed. *)
Definition is_open s : bool :=
  match _handle s with
  | Some h => negb (h_closed h)
  | None => false
  end.

(** The statements of [close] that follow the acquisition of the lock. *)
Definition after_acquire (ph : close_pc) : bool :=
  match ph with
  | CloseFlush | CloseHandle | CloseDiscard => true
  | CloseSpin | CloseStop | CloseAcquire => false
  end.

(** An instance owns its entry of [_paths] from its construction until
    [close] has discarded it. *)
Definition registered σ (i : nat) s : Prop :=
  is_open s = true ∨ caller σ = Some (i, Closing CloseDiscard).

(** What holds of every constructed instance [s], at index [i] of the
    heap, in every reachable state. *)
Record session_inv σ (i : nat) s : Prop := {
  inv_slots :
    ∃ p m h, _path s = Some p ∧ _access_mode s = Some m ∧ _handle s = Some h ∧
             h_path h = p ∧ _hash s = hash p ∧ mode_ok m = true ∧
             is_Some (_data s) ∧ is_Some (writer s);
  inv_file :
    ∀ p, _path s = Some p → p ≠ [] ∧ ∃ c, disk σ !! p = Some (File c);
  inv_lock :
    holds_lock (writer s) = true → _shutdown_lock s = true;
  inv_closing :
    ∀ ph, caller σ = Some (i, Closing ph) → after_acquire ph = true →
          _shutdown_lock s = true ∧ holds_lock (writer s) = false;
  inv_close_handle :
    caller σ = Some (i, Closing CloseHandle) → is_open s = true;
  inv_close_discard :
    caller σ = Some (i, Closing CloseDiscard) → is_open s = false;
  inv_read_only :
    _access_mode s ≠ Some "r+" →
    _changed s = false ∧ flushing (writer s) = false ∧
    caller σ ≠ Some (i, WriteSetChanged);
  inv_registered :
    registered σ i s → _hash s ∈ _paths σ
}.

(** Every instance satisfies [session_inv], and two instances that own
    an entry of [_paths] have different hashes. *)
Definition invariant σ : Prop :=
  (∀ i s, heap σ !! i = Some s → session_inv σ i s) ∧
  (∀ i j si sj, heap σ !! i = Some si → heap σ !! j = Some sj →
                registered σ i si → registered σ j sj →
                _hash si = _hash sj → i = j).

(** The writer will not execute another statement: it returned, died,
    or waits for a lock that is held. *)
Definition stopped s : Prop :=
  match writer s with
  | Some WExited | Some (WCrashed _) | None => True
  | Some WAcquire => _shutdown_lock s = true
  | Some (WLoop | WTest | WClear | WFlush | WRelease) => False
  end.

(** Steps of the writer threads, of the file buffers and of the
    operating system. *)
Definition background (l : label) : bool :=
  match l with
  | Writer _ | Spill _ _ | Refuse _ => true
  | Call _ | Main => false
  end.

(** What a step leaves unchanged in an instance. *)
Record kept (l : label) (ev : event) (i : nat) s s' : Prop := {
  kept_access_mode : _access_mode s' = _access_mode s;
  kept_path : _path s' = _path s;
  kept_hash : _hash s' = _hash s;
  kept_stopped : stopped s → stopped s' ∧ writer s' = writer s ∧ ∀ b, ev ≠ Flushed i b;
  kept_closed : stopped s → is_open s = false → _handle s' = _handle s;
  kept_data : background l = true → _data s' = _data s
}.

(** The payloads written by the writer of instance [i], in order. *)
Definition flushes (i : nat) (evs : list event) : list bytes :=
  omap (λ ev, match ev with
              | Flushed j b => if bool_decide (j = i) then Some b else None
              | _ => None
              end) evs.

(** ** The statements as a relation

    [trans l σ ev σ'] lists, statement by statement, what one step of the
    process does; [step] is included in it. *)
Inductive trans : label → process → event → process → Prop :=
| trans_open p access_mode σ σ' k :
    caller σ = None → BetterJSONStorage p access_mode σ = (σ', Ret k) →
    trans (Call (COpen p access_mode)) σ Returned σ'
| trans_open_raise p access_mode σ σ' e :
    caller σ = None → BetterJSONStorage p access_mode σ = (σ', Raise e) →
    trans (Call (COpen p access_mode)) σ (Raised e) σ'
| trans_write_data i s data σ :
    caller σ = None → heap σ !! i = Some s → _access_mode s = Some "r+" →
    trans (Call (CWrite i data)) σ Tau (set_caller (Some (i, WriteSetChanged)) (store i (set_data data s) σ))
| trans_write_raise i s data e σ :
    caller σ = None → heap σ !! i = Some s →
    trans (Call (CWrite i data)) σ (Raised e) σ
| trans_load_raise i s e σ :
    caller σ = None → heap σ !! i = Some s →
    trans (Call (CLoad i)) σ (Raised e) σ
| trans_write_flag i s σ :
    caller σ = Some (i, WriteSetChanged) → heap σ !! i = Some s →
    trans Main σ Returned (set_caller None (store i (set_changed true s) σ))
| trans_load i s v σ :
    caller σ = None → heap σ !! i = Some s →
    load (disk σ) s = Ret (set_data v s) →
    trans (Call (CLoad i)) σ Returned (store i (set_data v s) σ)
| trans_close_enter i s σ :
    caller σ = None → heap σ !! i = Some s →
    trans (Call (CClose i)) σ Tau (set_caller (Some (i, Closing CloseSpin)) σ)
| trans_close_spin i s σ :
    caller σ = Some (i, Closing CloseSpin) → heap σ !! i = Some s →
    _changed s = false →
    trans Main σ Tau (set_caller (Some (i, Closing CloseStop)) (store i s σ))
| trans_close_stop i s σ :
    caller σ = Some (i, Closing CloseStop) → heap σ !! i = Some s →
    trans Main σ Tau (set_caller (Some (i, Closing CloseAcquire))
                   (store i (set_running false s) σ))
| trans_close_acquire i s σ :
    caller σ = Some (i, Closing CloseAcquire) → heap σ !! i = Some s →
    _shutdown_lock s = false →
    trans Main σ Tau (set_caller (Some (i, Closing CloseFlush))
                   (store i (set_lock true s) σ))
| trans_close_flush i s h fs h' σ :
    caller σ = Some (i, Closing CloseFlush) → heap σ !! i = Some s →
    _handle s = Some h → h_closed h = false →
    spill (length (h_buf h)) h (disk σ) = Some (fs, h') →
    trans Main σ Tau (set_caller (Some (i, Closing CloseHandle))
                   (store i (set_handle h' s) (set_disk fs σ)))
| trans_close_raise i ph s e σ :
    caller σ = Some (i, Closing ph) → heap σ !! i = Some s →
    ph = CloseFlush ∨ ph = CloseHandle →
    trans Main σ (Raised e) (set_caller None σ)
| trans_close_handle_closed i s h σ :
    caller σ = Some (i, Closing CloseHandle) → heap σ !! i = Some s →
    _handle s = Some h → h_closed h = true →
    trans Main σ Tau (set_caller (Some (i, Closing CloseDiscard))
                   (store i (set_handle h s) (set_disk (disk σ) σ)))
| trans_close_handle i s h fs h' σ :
    caller σ = Some (i, Closing CloseHandle) → heap σ !! i = Some s →
    _handle s = Some h → h_closed h = false →
    spill (length (h_buf h)) h (disk σ) = Some (fs, h') →
    trans Main σ Tau
      (set_caller (Some (i, Closing CloseDiscard))
         (store i (set_handle (Handle (h_path h') true (h_buf h') (h_pos h')) s)
            (set_disk fs σ)))
| trans_close_discard i s σ :
    caller σ = Some (i, Closing CloseDiscard) → heap σ !! i = Some s →
    trans Main σ Returned
      (set_caller None (store i s (set_paths (_paths σ ∖ {[ _hash s ]}) σ)))
| trans_writer_acquire i s σ :
    heap σ !! i = Some s → writer s = Some WAcquire → _shutdown_lock s = false →
    trans (Writer i) σ Tau (store i (set_writer WLoop (set_lock true s)) σ)
| trans_writer_loop i s σ :
    heap σ !! i = Some s → writer s = Some WLoop →
    trans (Writer i) σ Tau (store i (set_writer (if _running s then WTest else WRelease) s) σ)
| trans_writer_test i s σ :
    heap σ !! i = Some s → writer s = Some WTest →
    trans (Writer i) σ Tau (store i (set_writer (if _changed s then WClear else WLoop) s) σ)
| trans_writer_clear i s σ :
    heap σ !! i = Some s → writer s = Some WClear →
    trans (Writer i) σ Tau (store i (set_writer WFlush (set_changed false s)) σ)
| trans_writer_flush i s h v b σ :
    heap σ !! i = Some s → writer s = Some WFlush →
    _handle s = Some h → _data s = Some v → encode v = Some b →
    h_closed h = false →
    trans (Writer i) σ (Flushed i b)
      (store i (set_writer WLoop (set_handle (handle_write b h) s)) σ)
| trans_writer_codec i s h v σ :
    heap σ !! i = Some s → writer s = Some WFlush →
    _handle s = Some h → _data s = Some v → encode v = None →
    trans (Writer i) σ (Crashed i CodecError) (store i (set_writer (WCrashed CodecError) s) σ)
| trans_writer_crash i s e σ :
    heap σ !! i = Some s → writer s = Some WFlush →
    _handle s = None ∨ _data s = None ∨
      (∃ h, _handle s = Some h ∧ h_closed h = true) →
    trans (Writer i) σ (Crashed i e) (store i (set_writer (WCrashed e) s) σ)
| trans_writer_release i s σ :
    heap σ !! i = Some s → writer s = Some WRelease →
    trans (Writer i) σ Tau (store i (set_writer WExited (set_lock false s)) σ)
| trans_spill i n s h fs h' σ :
    heap σ !! i = Some s → _handle s = Some h → h_closed h = false →
    spill n h (disk σ) = Some (fs, h') →
    trans (Spill i n) σ Tau (set_disk fs (store i (set_handle h' s) σ))
| trans_refuse i s h v b σ :
    heap σ !! i = Some s → writer s = Some WFlush →
    _handle s = Some h → h_closed h = false →
    _data s = Some v → encode v = Some b →
    trans (Refuse i) σ (Crashed i OSError)
      (store i (set_writer (WCrashed OSError) s) σ).

(** More of what holds of an instance in every reachable state: a closed
    handle comes with a held lock, a writer outside its loop and
    [_running] cleared; past its wait [close] finds [_changed] clear and,
    past its second statement, [_running] cleared; and the writer stands
    before [self._changed = False] only when the flag is set. *)
Record session_inv2 σ (i : nat) s : Prop := {
  inv_closed :
    is_open s = false →
    _shutdown_lock s = true ∧ holds_lock (writer s) = false ∧ _running s = false;
  inv_closing_changed :
    ∀ ph, caller σ = Some (i, Closing ph) → ph ≠ CloseSpin → _changed s = false;
  inv_closing_running :
    ∀ ph, caller σ = Some (i, Closing ph) → ph ≠ CloseSpin → ph ≠ CloseStop →
          _running s = false;
  inv_clear :
    writer s = Some WClear → _changed s = true
}.

Definition invariant2 σ : Prop :=
  ∀ i s, heap σ !! i = Some s → session_inv2 σ i s.

(** The hash [h] is in [_paths] and no instance owns it. *)
Definition leaked (h : Z) σ : Prop :=
  h ∈ _paths σ ∧
  ∀ i s, heap σ !! i = Some s → registered σ i s → _hash s ≠ h.

(** ** Histories

    The states reached from start-up, with the schedule that was run and
    the events it produced, oldest first. *)
Inductive history : process → list label → list event → Prop :=
| history_boot fs : history (boot fs) [] []
| history_step σ ls evs l σ' ev :
    history σ ls evs → step l σ = Some (σ', ev) →
    history σ' (ls ++ [l]) (evs ++ [ev]).

(** The calls of [write] and of [load] on instance [i]. *)
Definition is_write (i : nat) (l : label) : bool :=
  match l with
  | Call (CWrite j _) => bool_decide (j = i)
  | _ => false
  end.

Definition is_load (i : nat) (l : label) : bool :=
  match l with
  | Call (CLoad j) => bool_decide (j = i)
  | _ => false
  end.

(** How often [write] was called on instance [i]. *)
Definition writes (i : nat) (ls : list label) : nat :=
  length (filter (λ l, is_write i l = true) ls).

(** The file of an instance and the buffer of its handle hold, one
    after the other, the payloads its writer has flushed. *)
Definition file_ok σ (evs : list event) (i : nat) s : Prop :=
  ∃ h c, _handle s = Some h ∧ disk σ !! h_path h = Some (File c) ∧
         h_pos h = length c ∧ c ++ h_buf h = concat (flushes i evs) ∧
         (h_closed h = true → h_buf h = []).

(** The last payload flushed is the document, unless nothing was ever
    written. *)
Definition in_sync (evs : list event) (i : nat) s : Prop :=
  (flushes i evs = [] ∧ _data s = Some None) ∨
  ∃ v b, _data s = Some v ∧ encode v = Some b ∧ last (flushes i evs) = Some b.

(** Nothing of a write is under way: the flag is clear, the caller is
    not between the two statements of [write], and the writer thread is
    neither about to write nor dead. *)
Definition settled σ (i : nat) s : Prop :=
  _changed s = false ∧ caller σ ≠ Some (i, WriteSetChanged) ∧
  writer s ≠ Some WFlush ∧ ∀ e, writer s ≠ Some (WCrashed e).

(** Flushes done, and flushes that the state still owes. *)
Definition flush_debt σ (evs : list event) (i : nat) s : nat :=
  length (flushes i evs)
  + match writer s with Some WFlush => 1 | _ => 0 end
  + (if _changed s then 1 else 0)
  + match caller σ with
    | Some (j, WriteSetChanged) => if bool_decide (j = i) then 1 else 0
    | _ => 0
    end.


End Storage.

Arguments Blocked {A}.
Arguments Continue {A} a.
Arguments Throws {A} e.

(** ** A concrete codec and file system for running the model

    [orjson] and [blosc2] are replaced by a small codec with the features
    the examples need: Python's [None] is serialised as the four bytes of
    [null], a document is serialised between braces, a document holding the
    byte [0xff] cannot be serialised, and the compressor puts a one-byte
    header in front of its input. *)
Module Demo.

#[export] Instance byte_eq_dec : EqDecision Byte.byte := Byte.byte_eq_dec.

Definition null : bytes := [Byte.x6e; Byte.x75; Byte.x6c; Byte.x6c].

Definition demo_dumps (v : option bytes) : option bytes :=
  match v with
  | None => Some null
  | Some d =>
      if bool_decide (Byte.xff ∈ d) then None
      else Some (Byte.x7b :: d ++ [Byte.x7d])
  end.

Definition demo_loads (b : bytes) : option (option bytes) :=
  if bool_decide (b = null) then Some None
  else match b with
       | Byte.x7b :: rest =>
           match reverse rest with
           | Byte.x7d :: body => Some (Some (reverse body))
           | _ => None
           end
       | _ => None
       end.

Definition demo_compress (b : bytes) : option bytes := Some (Byte.x02 :: b).

Definition demo_decompress (b : bytes) : option bytes :=
  match b with
  | Byte.x02 :: rest => Some rest
  | _ => None
  end.

#[export] Instance demo_codec : Codec bytes :=
  {| dumps := demo_dumps; loads := demo_loads;
     compress := demo_compress; decompress := demo_decompress |}.

(** A hash on paths: the sum of the lengths of the parts. *)
Definition demo_hash (p : path) : Z :=
  Z.of_nat (foldr (λ part n, String.length part + n) 0 p).

Definition db : path := ["data"; "db"].
Definition store_dir : path := ["data"].

(** Two documents, and a value that cannot be serialised. *)
Definition D1 : option bytes := Some [Byte.x31].
Definition D2 : option bytes := Some [Byte.x32; Byte.x32].
Definition unserialisable : option bytes := Some [Byte.xff].

(** The constructor call with ["r+"], then the writer thread acquiring
    the shutdown lock. *)
Definition open_rw : list (@label bytes) :=
  [Call (COpen db "r+"); Writer 0].

(** The two statements of [write]. *)
Definition write_call (i : nat) (data : option bytes) : list (@label bytes) :=
  [Call (CWrite i data); Main].

(** Enough writer steps for one pass through the loop with [_changed]
    set: the loop test, the flag test, the clearing and the write. *)
Definition flush_cycle (i : nat) : list (@label bytes) :=
  [Writer i; Writer i; Writer i; Writer i].

(** [close] up to its last statement: the wait on [_changed], the
    assignment of [_running], the two writer steps that leave the loop and
    release the lock, then the acquisition, the flush and the closing of
    the handle. *)
Definition closing_call (i : nat) : list (@label bytes) :=
  [Call (CClose i); Main; Main; Writer i; Writer i; Main; Main; Main].

(** [close] to its end: [_paths.discard] is the last statement. *)
Definition close_call (i : nat) : list (@label bytes) :=
  closing_call i ++ [Main].

(** Open, write [D1], let the writer flush, close. *)
Definition one_write : list (@label bytes) :=
  open_rw ++ write_call 0 D1 ++ flush_cycle 0 ++ close_call 0.

(** The same, stopped before the last statement of [close]. *)
Definition one_write_closing : list (@label bytes) :=
  open_rw ++ write_call 0 D1 ++ flush_cycle 0 ++ closing_call 0.

(** Open, write [D1], flush, write [D2], flush, close. *)
Definition two_writes : list (@label bytes) :=
  open_rw ++ write_call 0 D1 ++ flush_cycle 0
    ++ write_call 0 D2 ++ flush_cycle 0 ++ close_call 0.

(** Open, write Python's [None], flush, close, which lets the five bytes
    reach the file; then write [D1] on the closed instance. *)
Definition stored_null : list (@label bytes) :=
  open_rw ++ write_call 0 None ++ flush_cycle 0 ++ close_call 0 ++ write_call 0 D1.

(** Open, write a value that cannot be serialised, and let the writer
    reach the clearing of [_changed]. *)
Definition before_failing_flush : list (@label bytes) :=
  open_rw ++ write_call 0 unserialisable ++ [Writer 0; Writer 0].

(** The same with the clearing and the write. *)
Definition failing_flush : list (@label bytes) :=
  before_failing_flush ++ [Writer 0; Writer 0].

(** [D1] is written, the writer clears [_changed] and computes the
    payload, and the operating system refuses the write. *)
Definition refused_flush : list (@label bytes) :=
  open_rw ++ write_call 0 D1 ++ [Writer 0; Writer 0; Writer 0; Refuse 0].

(** [D1] is written and the writer clears [_changed]; before it
    serialises, a value that cannot be serialised is written. *)
Definition overtaken_flush : list (@label bytes) :=
  open_rw ++ write_call 0 D1 ++ [Writer 0; Writer 0; Writer 0]
    ++ write_call 0 unserialisable ++ [Writer 0].

(** A file system where the store exists and holds one byte. *)
Definition existing : filesystem :=
  <[db := File [Byte.x41]]> (<[store_dir := Dir]> ∅).

(** Open with ["r"], then three steps of the writer thread. *)
Definition read_only_open : list (@label bytes) :=
  [Call (COpen db "r"); Writer 0; Writer 0; Writer 0].

(** The state and the events after a schedule, from start-up on [fs]. *)
Definition after (ls : list (@label bytes)) (fs : filesystem) : @process bytes :=
  match run demo_hash ls (boot fs) with
  | Some (σ, _) => σ
  | None => boot fs
  end.

Definition events (ls : list (@label bytes)) (fs : filesystem) : list event :=
  match run demo_hash ls (boot fs) with
  | Some (_, evs) => evs
  | None => []
  end.

(** The instance at index [i] of the heap. *)
Definition instance (i : nat) (σ : @process bytes) : @session bytes :=
  default (fresh 0) (heap σ !! i).

End Demo.

(** * Properties *)

Section Properties.
Context {Doc : Type} {codec : Codec Doc}.
Variable hash : path → Z.

Implicit Types (σ : @process Doc) (self s : @session Doc) (p : path).

(** ** Construction *)

Lemma stat_file_lookup (fs : filesystem) p c :
  stat fs p = Some (File c) → fs !! p = Some (File c) ∧ p ≠ [].
Proof. destruct p; simpl; [discriminate | auto]. Qed.

(** [close] on an instance that has no handle yet stops at
    [self._handle.flush()]: the class attribute [_paths] is not reached. *)
Lemma close_without_handle σ self :
  _handle self = None → _changed self = false → _shutdown_lock self = false →
  close σ self = (σ, Raise (AttributeError_slot "_handle")).
Proof.
  intros Hh Hc Hl. unfold close. simpl. rewrite Hc. simpl. rewrite Hl. simpl.
  rewrite Hh. reflexivity.
Qed.

Lemma close_and_raise_fresh e σ h :
  close_and_raise e σ (fresh h) = (σ, Raise (AttributeError_slot "_handle")).
Proof. unfold close_and_raise. rewrite close_without_handle; done. Qed.

Lemma new_Ret p σ σ1 :
  __new__ hash p σ = Ret σ1 →
  (hash p ∉ _paths σ) ∧ σ1 = set_paths (_paths σ ∪ {[ hash p ]}) σ.
Proof.
  unfold __new__. case_bool_decide; [discriminate|]. by intros [= <-].
Qed.

Lemma new_Raise p σ e :
  __new__ hash p σ = Raise e → hash p ∈ _paths σ ∧ e = AttributeError_exists.
Proof.
  unfold __new__. case_bool_decide; [|discriminate]. by intros [= <-].
Qed.

Lemma new_not_Hang p σ : __new__ hash p σ ≠ Hang.
Proof. unfold __new__. by case_bool_decide. Qed.

Lemma init_unfold p access_mode σ :
  __init__ hash p access_mode σ = init_result hash p access_mode σ.
Proof.
  unfold __init__, init_result.
  destruct (mode_ok access_mode); simpl; [|apply close_and_raise_fresh].
  unfold exists_, is_file.
  destruct (stat (disk σ) p) as [[|c]|] eqn:Hst; simpl.
  - rewrite Hst. simpl. apply close_and_raise_fresh.
  - rewrite Hst. simpl. unfold load. simpl.
    destruct p; [discriminate|]. simpl. by rewrite lookup_insert_eq.
  - case_bool_decide; [apply close_and_raise_fresh|].
    destruct (mkdir_parents (parent p) (disk σ)) as [fs [|]]; [|done].
    simpl. destruct p; [discriminate|]. simpl.
    rewrite lookup_insert_eq. simpl. unfold load. simpl.
    by rewrite lookup_insert_eq.
Qed.

Lemma files_kept_refl (fs : filesystem) : files_kept fs fs.
Proof. intros q c ?. eauto. Qed.

Lemma files_kept_trans (fs1 fs2 fs3 : filesystem) :
  files_kept fs1 fs2 → files_kept fs2 fs3 → files_kept fs1 fs3.
Proof. intros H12 H23 q c Hq. apply H12 in Hq as [c' Hq]. eauto. Qed.

Lemma files_kept_insert_file (fs : filesystem) p c :
  files_kept fs (<[p := File c]> fs).
Proof.
  intros q c0 Hq. destruct (decide (p = q)) as [->|Hne].
  - rewrite lookup_insert_eq. eauto.
  - rewrite lookup_insert_ne; eauto.
Qed.

Lemma files_kept_mkdir_each (qs : list path) (fs : filesystem) :
  files_kept fs (mkdir_each qs fs).1.
Proof.
  revert fs. induction qs as [|q qs IH]; intros fs; simpl.
  - apply files_kept_refl.
  - destruct (stat fs q) as [[|c]|] eqn:Hst; [apply IH|apply files_kept_refl|].
    eapply files_kept_trans; [|apply IH].
    intros q' c' Hq'. destruct (decide (q = q')) as [->|Hne].
    + destruct q'; [discriminate|]. simpl in Hst. congruence.
    + rewrite lookup_insert_ne; eauto.
Qed.

Lemma files_kept_spill (n : nat) (h h' : handle) (fs fs' : filesystem) :
  spill n h fs = Some (fs', h') → files_kept fs fs'.
Proof.
  unfold spill. destruct (fs !! h_path h) as [[|c]|]; try discriminate.
  intros [= <- <-]. apply files_kept_insert_file.
Qed.

(** A constructor call either raises, leaving the heap as it was, or
    appends the new instance; the file at [p] is empty afterwards. *)
Lemma construct_cases p access_mode σ σ' r :
  BetterJSONStorage hash p access_mode σ = (σ', r) →
  caller σ' = caller σ ∧ files_kept (disk σ) (disk σ') ∧ _paths σ ⊆ _paths σ' ∧
  ((∃ e, r = Raise e ∧ heap σ' = heap σ) ∨
   (r = Ret (length (heap σ)) ∧ (hash p ∉ _paths σ) ∧
    mode_ok access_mode = true ∧ p ≠ [] ∧
    heap σ' = heap σ ++ [constructed hash p access_mode] ∧
    disk σ' !! p = Some (File []) ∧
    _paths σ' = _paths σ ∪ {[ hash p ]})).
Proof.
  unfold BetterJSONStorage.
  destruct (__new__ hash p σ) as [σ1|e|] eqn:Hn.
  - apply new_Ret in Hn as [Hfresh ->].
    rewrite init_unfold. unfold init_result.
    destruct (mode_ok access_mode) eqn:Hm; simpl.
    2:{ intros [= <- <-]. simpl. split_and!; [done|apply files_kept_refl|set_solver|eauto]. }
    destruct (stat (disk σ) p) as [[|c]|] eqn:Hst; simpl.
    + intros [= <- <-]. simpl.
      split_and!; [done|apply files_kept_refl|set_solver|eauto].
    + intros [= <- <-]. simpl.
      apply stat_file_lookup in Hst as [Hlk Hne].
      split_and!; [done|apply files_kept_insert_file|set_solver|].
      right. split_and!; try done. apply lookup_insert_eq.
    + case_bool_decide.
      { intros [= <- <-]. simpl.
        split_and!; [done|apply files_kept_refl|set_solver|eauto]. }
      pose proof (files_kept_mkdir_each (prefixes_from [] (parent p)) (disk σ)) as Hk.
      unfold mkdir_parents.
      destruct (mkdir_each _ _) as [fs [|]]; simpl in *; intros [= <- <-]; simpl.
      * split_and!; [done| |set_solver|].
        { eapply files_kept_trans; [apply Hk|].
          eapply files_kept_trans; apply files_kept_insert_file. }
        right. split_and!; try done.
        { intros ->. discriminate. }
        apply lookup_insert_eq.
      * split_and!; [done|done|set_solver|eauto].
  - apply new_Raise in Hn as [Hin ->]. intros [= <- <-].
    split_and!; [done|apply files_kept_refl|done|eauto].
  - by apply new_not_Hang in Hn.
Qed.

(** ** The invariant of reachable states *)

Lemma invariant_boot (fs : filesystem) : invariant hash (@boot Doc fs).
Proof. split; simpl; intros; by rewrite ?lookup_nil in *. Qed.

(** An instance that a step does not touch keeps its invariant. *)
Lemma session_inv_frame σ σ' j s :
  session_inv hash σ j s →
  files_kept (disk σ) (disk σ') →
  (∀ pc, caller σ' = Some (j, pc) → caller σ = Some (j, pc)) →
  (_hash s ∈ _paths σ → registered σ j s → _hash s ∈ _paths σ') →
  session_inv hash σ' j s.
Proof.
  intros [Hsl Hfi Hlo Hcl Hch Hcd Hro Hre] Hk Hc Hp. constructor; try done.
  - intros p Hpath. destruct (Hfi p Hpath) as [Hne [c Hlk]].
    split; [done|]. by apply Hk in Hlk.
  - intros ph Hph. apply Hcl. by apply Hc.
  - intros Hph. apply Hch. by apply Hc.
  - intros Hph. apply Hcd. by apply Hc.
  - intros Hm. destruct (Hro Hm) as (? & ? & Hw). split_and!; try done.
    intros Hc'. apply Hw. by apply Hc.
  - intros Hr. assert (registered σ j s) as Hr'.
    { destruct Hr as [?|Hr]; [by left|right; by apply Hc]. }
    apply Hp; [by apply Hre|done].
Qed.

(** A step that acts on the instance [i] alone. *)
Lemma invariant_update σ σ' i s s' :
  invariant hash σ →
  heap σ !! i = Some s →
  heap σ' = <[i := s']> (heap σ) →
  files_kept (disk σ) (disk σ') →
  (∀ j pc, j ≠ i → caller σ' = Some (j, pc) → caller σ = Some (j, pc)) →
  (_paths σ' = _paths σ ∨
   (_paths σ' = _paths σ ∖ {[ _hash s ]} ∧ registered σ i s)) →
  _hash s' = _hash s →
  (registered σ' i s' → registered σ i s) →
  session_inv hash σ' i s' →
  invariant hash σ'.
Proof.
  intros [Hall Hdist] Hi Hheap Hk Hc Hp Hh Hreg Hnew.
  assert (Hlook : ∀ j sj', heap σ' !! j = Some sj' →
            (j = i ∧ sj' = s') ∨ (j ≠ i ∧ heap σ !! j = Some sj')).
  { intros j sj'. rewrite Hheap. intros Hj.
    apply list_lookup_insert_Some in Hj as [(-> & -> & _)|[Hne Hj]]; eauto. }
  assert (Hreg' : ∀ j sj, j ≠ i → heap σ !! j = Some sj →
            registered σ' j sj → registered σ j sj).
  { intros j sj Hne Hj [Ho|Hcal]; [by left|right; by apply Hc]. }
  split.
  - intros j sj' Hj. destruct (Hlook j sj' Hj) as [[-> ->]|[Hne Hj']]; [done|].
    apply session_inv_frame with (σ := σ); auto.
    intros Hin Hr. destruct Hp as [->|[-> Hri]]; [done|].
    apply elem_of_difference. split; [done|].
    intros Heq%elem_of_singleton. apply Hne.
    by apply (Hdist j i sj' s); auto.
  - intros a b sa sb Ha Hb Hra Hrb Heq.
    destruct (Hlook a sa Ha) as [[-> ->]|[Hna Ha']];
      destruct (Hlook b sb Hb) as [[-> ->]|[Hnb Hb']]; try done.
    + apply (Hdist i b s sb); auto. congruence.
    + apply (Hdist a i sa s); auto. congruence.
    + apply (Hdist a b sa sb); auto.
Qed.

Lemma invariant_open σ σ' p access_mode ev :
  invariant hash σ →
  step hash (Call (COpen p access_mode)) σ = Some (σ', ev) →
  invariant hash σ'.
Proof.
  intros [Hall Hdist]. simpl.
  destruct (caller σ) as [c|] eqn:Hcal; [discriminate|]. simpl.
  destruct (BetterJSONStorage hash p access_mode σ) as [σ1 r] eqn:Hb.
  apply construct_cases in Hb as (Hc & Hk & Hp & Hcase).
  intros Hstep.
  assert (σ1 = σ') as -> by (destruct r; congruence).
  clear Hstep. rewrite Hcal in Hc.
  assert (Hreg : ∀ j sj, registered σ' j sj → registered σ j sj).
  { intros j sj [?|Hr]; [by left|]. congruence. }
  assert (Hold : ∀ j sj, heap σ !! j = Some sj → session_inv hash σ' j sj).
  { intros j sj Hj. apply session_inv_frame with (σ := σ);
      [by apply Hall|done|congruence|intros Hin _; by apply Hp]. }
  destruct Hcase as [(e & -> & Hheap)|(-> & Hfresh & Hm & Hne & Hheap & Hd & Hps)].
  - split.
    + intros j sj. rewrite Hheap. apply Hold.
    + intros a b sa sb. rewrite Hheap. eauto.
  - assert (Hnew : ∀ j sj, heap σ !! j = Some sj → registered σ j sj →
              _hash sj ≠ hash p).
    { intros j sj Hj Hr Heq. apply Hfresh. rewrite <- Heq.
      by apply (inv_registered _ _ _ _ (Hall j sj Hj)). }
    split.
    + intros j sj. rewrite Hheap.
      intros [[_ Hj]|[-> <-]]%lookup_snoc_Some; [by apply Hold|].
      constructor; simpl; try done; try congruence.
      * exists p, access_mode, (Handle p false [] 0). split_and!; eauto.
      * intros ? [= <-]. eauto.
      * intros _. split_and!; congruence.
      * intros _. rewrite Hps. clear. set_solver.
    + intros a b sa sb. rewrite Hheap.
      intros [[_ Ha]|[-> <-]]%lookup_snoc_Some [[_ Hb]|[-> <-]]%lookup_snoc_Some;
        try done; intros Hra Hrb Heq.
      * eauto.
      * exfalso. apply (Hnew a sa); auto.
      * exfalso. apply (Hnew b sb); auto.
Qed.

Lemma bind_Some_inv {A B : Type} (o : option A) (f : A → option B) (b : B) :
  o ≫= f = Some b → ∃ a, o = Some a ∧ f a = Some b.
Proof. destruct o; simpl; [eauto|discriminate]. Qed.

Ltac inv_fields H :=
  let Hsl := fresh "Hsl" in
  destruct H as [Hsl Hfi Hlo Hcl Hch Hcd Hro Hre];
  destruct Hsl as (p & m & h & Hp & Hm & Hh & Hhp & Hhash & Hmok & Hd & Hwr).

Ltac inv_build :=
  constructor; unfold registered, is_open; simpl;
  [ eexists _, _, _; split_and!; simpl; eauto | .. ];
  repeat match goal with
         | H : _handle _ = Some _ |- _ => rewrite H
         | H : h_closed _ = _ |- _ => rewrite H
         end; simpl;
  try done; try (timeout 20 naive_solver).

Lemma session_inv_writer σ i s s' ev :
  session_inv hash σ i s → writer_step i s = Some (s', ev) →
  session_inv hash (store i s' σ) i s' ∧ _hash s' = _hash s ∧ is_open s' = is_open s.
Proof.
  intros Hs Hw. inv_fields Hs.
  unfold writer_step in Hw. rewrite Hh in Hw.
  unfold registered, is_open in *. rewrite Hh in Hre, Hch, Hcd.
  destruct (writer s) as [[| | | | | | |e]|] eqn:Hpc; try discriminate;
    simpl in Hlo, Hcl, Hro.
  - (* acquire *)
    destruct (_shutdown_lock s) eqn:Hlock; [discriminate|]. injection Hw as <- <-.
    split_and!; try done. inv_build.
  - (* while self._running *)
    injection Hw as <- <-. split_and!; try done.
    destruct (_running s); inv_build.
  - (* if self._changed *)
    injection Hw as <- <-. split_and!; try done.
    destruct (_changed s) eqn:Hchg; inv_build.
  - (* self._changed = False *)
    injection Hw as <- <-. split_and!; try done. inv_build.
  - (* write *)
    destruct (_data s) as [v|] eqn:Hdata; [|by destruct Hd].
    destruct (encode v) as [b|]; [destruct (h_closed h) eqn:Hclosed|];
      injection Hw as <- <-; (split_and!; [|done|simpl; by rewrite ?Hh, ?Hclosed]); inv_build.
  - (* release *)
    injection Hw as <- <-. split_and!; try done. inv_build.
Qed.

Lemma invariant_writer σ σ' i ev :
  invariant hash σ → step hash (Writer i) σ = Some (σ', ev) → invariant hash σ'.
Proof.
  intros Hinv. simpl. intros (s & Hi & Hstep)%bind_Some_inv.
  apply bind_Some_inv in Hstep as ([s' ev'] & Hw & [= <- <-]).
  destruct (session_inv_writer σ i s s' ev' (proj1 Hinv i s Hi) Hw) as (Hs' & Hh & Ho).
  eapply (invariant_update σ _ i s s'); try done.
  - apply files_kept_refl.
  - by left.
  - unfold registered. rewrite Ho. done.
Qed.

(** A write that the operating system refuses. *)
Lemma writer_fault_inv i s s' ev :
  writer_fault i s = Some (s', ev) →
  writer s = Some WFlush ∧ s' = set_writer (WCrashed OSError) s ∧
  ev = Crashed i OSError ∧
  ∃ h v b, _handle s = Some h ∧ h_closed h = false ∧ _data s = Some v ∧
           encode v = Some b.
Proof.
  unfold writer_fault. intros Hw.
  destruct (writer s) as [[| | | | | | |e]|]; try discriminate.
  destruct (_handle s) as [h|]; [|discriminate].
  destruct (_data s) as [v|]; [|discriminate].
  destruct (encode v) as [b|] eqn:Hb; [|discriminate].
  destruct (h_closed h) eqn:Hc; [discriminate|].
  injection Hw as <- <-. split_and!; try done. by exists h, v, b.
Qed.

Lemma session_inv_fault σ i s s' ev :
  session_inv hash σ i s → writer_fault i s = Some (s', ev) →
  session_inv hash (store i s' σ) i s' ∧ _hash s' = _hash s ∧ is_open s' = is_open s.
Proof.
  intros Hs Hw. inv_fields Hs.
  unfold writer_fault in Hw. rewrite Hh in Hw.
  unfold registered, is_open in *. rewrite Hh in Hre, Hch, Hcd.
  destruct (writer s) as [[| | | | | | |e]|] eqn:Hpc; try discriminate;
    simpl in Hlo, Hcl, Hro.
  destruct (_data s) as [v|] eqn:Hdata; [|discriminate].
  destruct (encode v) as [b|]; [|discriminate].
  destruct (h_closed h) eqn:Hclosed; [discriminate|].
  injection Hw as <- <-.
  split_and!; [|done|simpl; by rewrite ?Hh, ?Hclosed]. inv_build.
Qed.

Lemma invariant_refuse σ σ' i ev :
  invariant hash σ → step hash (Refuse i) σ = Some (σ', ev) → invariant hash σ'.
Proof.
  intros Hinv. simpl. intros (s & Hi & Hstep)%bind_Some_inv.
  apply bind_Some_inv in Hstep as ([s' ev'] & Hw & [= <- <-]).
  destruct (session_inv_fault σ i s s' ev' (proj1 Hinv i s Hi) Hw) as (Hs' & Hh & Ho).
  eapply (invariant_update σ _ i s s'); try done.
  - apply files_kept_refl.
  - by left.
  - unfold registered. rewrite Ho. done.
Qed.

(** Buffered bytes reaching the file. *)
Lemma invariant_spill σ σ' i n ev :
  invariant hash σ → step hash (Spill i n) σ = Some (σ', ev) → invariant hash σ'.
Proof.
  intros Hinv. simpl. intros (s & Hi & Hstep)%bind_Some_inv.
  apply bind_Some_inv in Hstep as (h0 & Hh0 & Hstep).
  destruct (h_closed h0) eqn:Hclosed; [discriminate|].
  apply bind_Some_inv in Hstep as ([fs h'] & Hsp & [= <- <-]).
  pose proof (files_kept_spill _ _ _ _ _ Hsp) as Hk.
  pose proof (proj1 Hinv i s Hi) as Hs. inv_fields Hs.
  assert (h0 = h) as -> by congruence.
  unfold spill in Hsp. destruct (disk σ !! h_path h) as [[|c]|]; try discriminate.
  injection Hsp as <- <-.
  eapply (invariant_update σ _ i s); try done.
  - by left.
  - unfold registered, is_open. simpl. rewrite Hh, Hclosed. tauto.
  - unfold registered, is_open in *. rewrite Hh, Hclosed in Hre, Hch, Hcd.
    simpl in Hre, Hch, Hcd. inv_build.
Qed.

(** The caller entering [write], [load] or [close]. *)
Lemma invariant_call σ σ' c ev :
  invariant hash σ → step hash (Call c) σ = Some (σ', ev) → invariant hash σ'.
Proof.
  intros Hinv Hstep. destruct c as [p am|i data|i|i].
  { by eapply invariant_open. }
  all: simpl in Hstep; destruct (caller σ) as [?|] eqn:Hcal; [discriminate|].
  all: simpl in Hstep; apply bind_Some_inv in Hstep as (s & Hi & Hstep).
  all: pose proof (proj1 Hinv i s Hi) as Hs; inv_fields Hs.
  all: unfold registered, is_open in *; rewrite Hh in Hre, Hch, Hcd.
  - unfold write_data in Hstep. rewrite Hm in Hstep. simpl in Hstep.
    case_bool_decide; injection Hstep as <- <-; [|done].
    eapply (invariant_update σ _ i s); try done.
    + apply files_kept_refl.
    + simpl. congruence.
    + by left.
    + unfold registered, is_open. simpl. rewrite Hh. intros [?|?]; [by left|done].
    + inv_build.
  - unfold load in Hstep. rewrite Hp in Hstep. simpl in Hstep.
    destruct (stat (disk σ) p) as [[|[|b0 bs]]|]; simpl in Hstep;
      try destruct (decode _); injection Hstep as <- <-; try done.
    all: eapply (invariant_update σ _ i s);
      [done|done|done|apply files_kept_refl|done|by left|done| |].
    all: try (unfold registered, is_open; simpl; rewrite Hh; tauto).
    all: inv_build.
  - injection Hstep as <- <-.
    eapply (invariant_update σ _ i s s); try done.
    + simpl. by rewrite list_insert_id.
    + apply files_kept_refl.
    + simpl. congruence.
    + by left.
    + unfold registered, is_open. simpl. rewrite Hh. intros [?|?]; [by left|done].
    + inv_build.
Qed.

(** Applying [invariant_update] to a step on instance [i]; what is left
    is the invariant of the instance itself. *)
Ltac update_only i s s' :=
  eapply (invariant_update _ _ i s s');
  [ done | done
  | first [done | simpl; by rewrite list_insert_id]
  | first [apply files_kept_refl | done]
  | simpl; first [done | congruence]
  | first [by left | right; split; [done | by right]]
  | done
  | unfold registered, is_open; simpl;
    repeat match goal with
           | H : _handle _ = Some _ |- _ => rewrite H
           | H : h_closed _ = _ |- _ => rewrite H
           end; simpl;
    first [tauto | intros [?|?]; [by left|done] | intros _; by left]
  | inv_build ].

(** The caller executing the next statement of [write] or [close]. *)
Lemma invariant_main σ σ' ev :
  invariant hash σ → step hash Main σ = Some (σ', ev) → invariant hash σ'.
Proof.
  intros Hinv Hstep. simpl in Hstep.
  apply bind_Some_inv in Hstep as ([i pc] & Hcal & Hstep).
  apply bind_Some_inv in Hstep as (s & Hi & Hstep).
  pose proof (proj1 Hinv i s Hi) as Hs. inv_fields Hs.
  unfold registered, is_open in *; rewrite Hh in Hre, Hch, Hcd.
  rewrite Hcal in Hcl, Hch, Hcd, Hre, Hro.
  destruct pc as [|ph]; simpl in Hstep.
  - injection Hstep as <- <-. update_only i s (set_changed true s).
  - destruct ph; simpl in Hstep.
    + (* while self._changed *)
      destruct (_changed s) eqn:Hchg; [discriminate|]. injection Hstep as <- <-.
      update_only i s s.
    + (* self._running = False *)
      injection Hstep as <- <-. update_only i s (set_running false s).
    + (* self._shutdown_lock.acquire() *)
      destruct (_shutdown_lock s) eqn:Hlock; [discriminate|]. injection Hstep as <- <-.
      update_only i s (set_lock true s).
      intros ph [= <-] _. split; [done|].
      destruct (holds_lock (writer s)); [by discriminate Hlo|done].
    + (* self._handle.flush() *)
      rewrite Hh in Hstep. simpl in Hstep. unfold handle_flush in Hstep.
      destruct (h_closed h) eqn:Hclosed.
      { injection Hstep as <- <-. update_only i s s. }
      destruct (spill _ h (disk σ)) as [[fs h']|] eqn:Hsp.
      2:{ injection Hstep as <- <-. update_only i s s. }
      injection Hstep as <- <-.
      pose proof (files_kept_spill _ _ _ _ _ Hsp) as Hk.
      unfold spill in Hsp. destruct (disk σ !! h_path h) as [[|c]|]; try discriminate.
      injection Hsp as <- <-. simpl in Hre.
      update_only i s (set_handle (Handle (h_path h) (h_closed h) (drop (length (h_buf h)) (h_buf h))
                 (h_pos h + length (take (length (h_buf h)) (h_buf h)))) s).
    + (* self._handle.close() *)
      rewrite Hh in Hstep. simpl in Hstep. unfold handle_close in Hstep.
      specialize (Hch eq_refl).
      destruct (h_closed h) eqn:Hclosed; [discriminate|].
      destruct (spill _ h (disk σ)) as [[fs h']|] eqn:Hsp.
      2:{ injection Hstep as <- <-. update_only i s s. }
      injection Hstep as <- <-.
      pose proof (files_kept_spill _ _ _ _ _ Hsp) as Hk.
      unfold spill in Hsp. destruct (disk σ !! h_path h) as [[|c]|]; try discriminate.
      injection Hsp as <- <-. simpl in Hre.
      update_only i s (set_handle (Handle (h_path h) true (drop (length (h_buf h)) (h_buf h))
                 (h_pos h + length (take (length (h_buf h)) (h_buf h)))) s).
    + (* self.__class__._paths.discard(self._hash) *)
      injection Hstep as <- <-. specialize (Hcd eq_refl).
      update_only i s s.
      intros [Ho|?]; [congruence|done].
Qed.

Lemma invariant_step σ σ' l ev :
  invariant hash σ → step hash l σ = Some (σ', ev) → invariant hash σ'.
Proof.
  destruct l.
  - apply invariant_call.
  - apply invariant_main.
  - apply invariant_writer.
  - apply invariant_spill.
  - apply invariant_refuse.
Qed.

Lemma invariant_reachable σ : reachable hash σ → invariant hash σ.
Proof.
  induction 1 as [fs|σ l σ' ev _ IH Hstep].
  - apply invariant_boot.
  - by eapply invariant_step.
Qed.

(** ** What a step does to one instance *)

Lemma kept_refl l ev i s : (∀ b, ev ≠ Flushed i b) → kept l ev i s s.
Proof. intros ?. by constructor. Qed.

Lemma lookup_store l ev (ss : list (@session Doc)) j sj sj' i s :
  ss !! j = Some sj → ss !! i = Some s →
  (i = j → kept l ev i sj sj') →
  (i ≠ j → ∀ b, ev ≠ Flushed i b) →
  ∃ s', <[j := sj']> ss !! i = Some s' ∧ kept l ev i s s'.
Proof.
  intros Hj Hi Hsame Hother. destruct (decide (i = j)) as [->|Hne].
  - exists sj'. split.
    + apply list_lookup_insert_eq. by eapply lookup_lt_Some.
    + assert (s = sj) as -> by congruence. auto.
  - exists s. split.
    + by rewrite list_lookup_insert_ne.
    + apply kept_refl. auto.
Qed.

Ltac kept_build :=
  constructor; unfold stopped, is_open; simpl; try done;
  repeat match goal with
         | H : writer _ = _ |- _ => rewrite H
         | H : _handle _ = _ |- _ => rewrite H
         | H : h_closed _ = _ |- _ => rewrite H
         | H : _shutdown_lock _ = _ |- _ => rewrite H
         end; simpl; try done; try (timeout 20 naive_solver);
  try (destruct (writer _) as [[| | | | | | |?]|]; simpl; timeout 20 naive_solver).

Lemma step_lookup σ σ' l ev i s :
  step hash l σ = Some (σ', ev) → heap σ !! i = Some s →
  ∃ s', heap σ' !! i = Some s' ∧ kept l ev i s s'.
Proof.
  intros Hstep Hi.
  assert (Hins : ∀ j sj' σ0, heap (store j sj' σ0) = <[j := sj']> (heap σ0)) by done.
  destruct l as [[p am|j data|j|j]| |j|j n|j]; simpl in Hstep.
  - destruct (caller σ); [discriminate|].
    destruct (BetterJSONStorage hash p am σ) as [σ1 r] eqn:Hb.
    apply construct_cases in Hb as (_ & _ & _ & Hcase).
    assert (σ1 = σ' ∧ ∀ b, ev ≠ Flushed i b) as [-> Hev]
      by (destruct r; split; congruence).
    exists s. split; [|by apply kept_refl].
    destruct Hcase as [(e & _ & ->)|(_ & _ & _ & _ & -> & _)]; [done|].
    apply lookup_app_l_Some. done.
  - (* write: the guard and self._data = data *)
    destruct (caller σ); [discriminate|]. simpl in Hstep.
    apply bind_Some_inv in Hstep as (sj & Hj & Hstep).
    unfold write_data in Hstep.
    destruct (_access_mode sj) as [m|]; simpl in Hstep;
      [case_bool_decide|]; injection Hstep as <- <-;
      try (exists s; split; [done|by apply kept_refl]).
    simpl. eapply lookup_store; eauto. intros _. kept_build.
  - (* load *)
    destruct (caller σ); [discriminate|]. simpl in Hstep.
    apply bind_Some_inv in Hstep as (sj & Hj & Hstep).
    destruct (load (disk σ) sj) as [sj'|e|] eqn:Hload; try discriminate;
      injection Hstep as <- <-;
      try (exists s; split; [done|by apply kept_refl]).
    simpl. eapply lookup_store; eauto. intros _.
    unfold load in Hload.
    destruct (_path sj) as [p|]; simpl in Hload; [|discriminate].
    destruct (stat (disk σ) p) as [[|[|b0 bs]]|]; try discriminate;
      try destruct (decode _); try discriminate; injection Hload as <-; kept_build.
  - (* close is entered *)
    destruct (caller σ); [discriminate|]. simpl in Hstep.
    apply bind_Some_inv in Hstep as (sj & Hj & [= <- <-]).
    exists s; split; [done|by apply kept_refl].
  - (* the caller inside write or close *)
    apply bind_Some_inv in Hstep as ([j pc] & Hcal & Hstep).
    apply bind_Some_inv in Hstep as (sj & Hj & Hstep).
    destruct pc as [|ph]; simpl in Hstep.
    { injection Hstep as <- <-. simpl. eapply lookup_store; eauto.
      intros _. kept_build. }
    destruct (close_phase ph σ sj) as [|[σ1 sj']|e] eqn:Hph; try discriminate.
    2:{ injection Hstep as <- <-. exists s; split; [done|by apply kept_refl]. }
    assert (Hev : ∀ k b, ev ≠ Flushed k b)
      by (destruct (close_next ph); injection Hstep as <- <-; done).
    assert (heap σ' = <[j := sj']> (heap σ1)) as ->
      by (destruct (close_next ph); injection Hstep as <- <-; done).
    assert (heap σ1 = heap σ ∧ kept Main ev j sj sj') as [-> Hk].
    { clear Hstep. destruct ph; simpl in Hph.
      - destruct (_changed sj); [discriminate|]. injection Hph as <- <-.
        split; [done|by apply kept_refl].
      - injection Hph as <- <-. split; [done|kept_build].
      - destruct (_shutdown_lock sj) eqn:Hlock; [discriminate|].
        injection Hph as <- <-. split; [done|kept_build].
      - destruct (_handle sj) as [h|] eqn:Hh; simpl in Hph; [|discriminate].
        unfold handle_flush in Hph. destruct (h_closed h) eqn:Hcl; [discriminate|].
        destruct (spill _ h (disk σ)) as [[fs h']|]; [|discriminate].
        injection Hph as <- <-. split; [done|kept_build].
      - destruct (_handle sj) as [h|] eqn:Hh; simpl in Hph; [|discriminate].
        unfold handle_close in Hph. destruct (h_closed h) eqn:Hcl.
        + injection Hph as <- <-. split; [done|kept_build].
        + destruct (spill _ h (disk σ)) as [[fs h']|]; [|discriminate].
          injection Hph as <- <-. split; [done|kept_build].
      - injection Hph as <- <-. split; [done|by apply kept_refl]. }
    eapply lookup_store; eauto. by intros ->.
  - (* the writer thread *)
    apply bind_Some_inv in Hstep as (sj & Hj & Hstep).
    apply bind_Some_inv in Hstep as ([sj' ev'] & Hw & [= <- <-]).
    simpl. eapply lookup_store; eauto.
    + intros ->. unfold writer_step in Hw.
      destruct (writer sj) as [[| | | | | | |e]|] eqn:Hpc; try discriminate.
      * destruct (_shutdown_lock sj) eqn:Hlock; [discriminate|].
        injection Hw as <- <-. kept_build.
      * injection Hw as <- <-. kept_build.
      * injection Hw as <- <-. kept_build.
      * injection Hw as <- <-. kept_build.
      * destruct (_handle sj) as [h|], (_data sj) as [v|];
          try destruct (encode v); try destruct (h_closed h);
          injection Hw as <- <-; kept_build.
      * injection Hw as <- <-. kept_build.
    + intros Hne b. unfold writer_step in Hw.
      destruct (writer sj) as [[| | | | | | |e]|]; try discriminate;
        repeat match type of Hw with
               | context [if ?c then _ else _] => destruct c
               | context [match ?x with _ => _ end] => destruct x
               end; try discriminate; injection Hw as <- <-; congruence.
  - (* the file buffer *)
    apply bind_Some_inv in Hstep as (sj & Hj & Hstep).
    apply bind_Some_inv in Hstep as (h & Hh & Hstep).
    destruct (h_closed h) eqn:Hcl; [discriminate|].
    apply bind_Some_inv in Hstep as ([fs h'] & Hsp & [= <- <-]).
    simpl. eapply lookup_store; eauto. intros _. kept_build.
  - (* the refused write *)
    apply bind_Some_inv in Hstep as (sj & Hj & Hstep).
    apply bind_Some_inv in Hstep as ([sj' ev'] & Hw & [= <- <-]).
    apply writer_fault_inv in Hw as (Hpc & -> & -> & _).
    simpl. eapply lookup_store; eauto. intros ->. kept_build.
Qed.

(** ** Schedules *)

Lemma run_cons_inv l ls σ σ' evs :
  run hash (l :: ls) σ = Some (σ', evs) →
  ∃ σ1 ev evs', step hash l σ = Some (σ1, ev) ∧
                run hash ls σ1 = Some (σ', evs') ∧ evs = ev :: evs'.
Proof.
  simpl. intros ([σ1 ev] & Hstep & Hrun)%bind_Some_inv.
  apply bind_Some_inv in Hrun as ([σ2 evs'] & Hrun & [= <- <-]). eauto 7.
Qed.

Lemma reachable_run ls σ σ' evs :
  reachable hash σ → run hash ls σ = Some (σ', evs) → reachable hash σ'.
Proof.
  revert σ evs. induction ls as [|l ls IH]; intros σ evs Hr Hrun.
  - by injection Hrun as <- <-.
  - apply run_cons_inv in Hrun as (σ1 & ev & evs' & Hstep & Hrun & ->).
    eapply IH; [|done]. by eapply reachable_step.
Qed.


(** Once the writer of an instance has stopped and its handle is closed,
    no schedule makes it write again. *)
Lemma run_stopped ls σ σ' evs i s :
  run hash ls σ = Some (σ', evs) → heap σ !! i = Some s →
  stopped s → is_open s = false →
  ∃ s', heap σ' !! i = Some s' ∧ stopped s' ∧ writer s' = writer s ∧
        _handle s' = _handle s ∧ ∀ b, Flushed i b ∉ evs.
Proof.
  revert σ evs s. induction ls as [|l ls IH]; intros σ evs s Hrun Hi Hst Hcl.
  - injection Hrun as <- <-. exists s. split_and!; try done.
    intros b Hin. by apply elem_of_nil in Hin.
  - apply run_cons_inv in Hrun as (σ1 & ev & evs' & Hstep & Hrun & ->).
    destruct (step_lookup _ _ _ _ _ _ Hstep Hi) as (s1 & Hi1 & [_ _ _ Hks Hkc _]).
    destruct (Hks Hst) as (Hst1 & Hw1 & Hev). specialize (Hkc Hst Hcl).
    assert (Hcl1 : is_open s1 = false) by (unfold is_open in *; by rewrite Hkc).
    destruct (IH _ _ _ Hrun Hi1 Hst1 Hcl1) as (s' & Hi' & Hst' & Hw' & Hh' & Hev').
    exists s'. split_and!; try congruence.
    intros b [Heq|Hin]%elem_of_cons; [by eapply Hev|by eapply Hev'].
Qed.

(** A writer that stopped with its handle still open stays stopped. *)
Lemma run_stopped_writer ls σ σ' evs i s :
  run hash ls σ = Some (σ', evs) → heap σ !! i = Some s → stopped s →
  ∃ s', heap σ' !! i = Some s' ∧ stopped s' ∧ writer s' = writer s ∧
        ∀ b, Flushed i b ∉ evs.
Proof.
  revert σ evs s. induction ls as [|l ls IH]; intros σ evs s Hrun Hi Hst.
  - injection Hrun as <- <-. exists s. split_and!; try done.
    intros b Hin. by apply elem_of_nil in Hin.
  - apply run_cons_inv in Hrun as (σ1 & ev & evs' & Hstep & Hrun & ->).
    destruct (step_lookup _ _ _ _ _ _ Hstep Hi) as (s1 & Hi1 & [_ _ _ Hks _ _]).
    destruct (Hks Hst) as (Hst1 & Hw1 & Hev).
    destruct (IH _ _ _ Hrun Hi1 Hst1) as (s' & Hi' & Hst' & Hw' & Hev').
    exists s'. split_and!; try congruence.
    intros b [Heq|Hin]%elem_of_cons; [by eapply Hev|by eapply Hev'].
Qed.

Lemma background_caller l σ σ' ev :
  background l = true → step hash l σ = Some (σ', ev) → caller σ' = caller σ.
Proof.
  destruct l as [c| |j|j n|j]; try discriminate; intros _; simpl.
  - intros (sj & Hj & Hstep)%bind_Some_inv.
    by apply bind_Some_inv in Hstep as ([sj' ev'] & Hw & [= <- <-]).
  - intros (sj & Hj & Hstep)%bind_Some_inv.
    apply bind_Some_inv in Hstep as (h & Hh & Hstep).
    destruct (h_closed h); [discriminate|].
    by apply bind_Some_inv in Hstep as ([fs h'] & Hsp & [= <- <-]).
  - intros (sj & Hj & Hstep)%bind_Some_inv.
    by apply bind_Some_inv in Hstep as ([sj' ev'] & Hw & [= <- <-]).
Qed.

(** Writer threads and file buffers leave the caller and the document
    alone. *)
Lemma run_background ls σ σ' evs i s :
  Forall (λ l, background l = true) ls →
  run hash ls σ = Some (σ', evs) → heap σ !! i = Some s →
  caller σ' = caller σ ∧
  ∃ s', heap σ' !! i = Some s' ∧ _data s' = _data s ∧
        _access_mode s' = _access_mode s.
Proof.
  intros Hbg. revert σ evs s.
  induction Hbg as [|l ls Hl _ IH]; intros σ evs s Hrun Hi.
  - injection Hrun as <- <-. eauto.
  - apply run_cons_inv in Hrun as (σ1 & ev & evs' & Hstep & Hrun & ->).
    destruct (step_lookup _ _ _ _ _ _ Hstep Hi) as (s1 & Hi1 & [Ha _ _ _ _ Hd]).
    destruct (IH _ _ _ Hrun Hi1) as (Hc & s' & Hi' & Hd' & Ha').
    split; [rewrite Hc; by eapply background_caller|].
    exists s'. split_and!; try done; rewrite ?Hd', ?Ha'; auto.
Qed.

(** Every step is one of the statements listed by [trans]. *)
Lemma step_trans l σ σ' ev :
  step hash l σ = Some (σ', ev) → trans hash l σ ev σ'.
Proof.
  destruct l as [[p am|i data|i|i]| |i|i n|i]; simpl.
  - destruct (caller σ) eqn:Hcal; [discriminate|].
    destruct (BetterJSONStorage hash p am σ) as [σ1 [k|e|]] eqn:Hb;
      intros [= <- <-]; [by eapply trans_open|by eapply trans_open_raise].
  - destruct (caller σ) eqn:Hcal; [discriminate|]. simpl.
    intros (s & Hi & Hstep)%bind_Some_inv. unfold write_data in Hstep.
    destruct (_access_mode s) as [m|] eqn:Hm; simpl in Hstep.
    + case_bool_decide; injection Hstep as <- <-.
      * subst m. by apply trans_write_data.
      * by eapply trans_write_raise.
    + injection Hstep as <- <-. by eapply trans_write_raise.
  - destruct (caller σ) eqn:Hcal; [discriminate|]. simpl.
    intros (s & Hi & Hstep)%bind_Some_inv.
    destruct (load (disk σ) s) as [s'|e|] eqn:Hl; try discriminate;
      injection Hstep as <- <-; [|by eapply trans_load_raise].
    assert (∃ v, s' = set_data v s) as [v ->].
    { unfold load in Hl. destruct (_path s); simpl in Hl; [|discriminate].
      destruct (stat (disk σ) l) as [[|[|b0 bs]]|]; try discriminate;
        try destruct (decode _); try discriminate; injection Hl as <-; eauto. }
    by apply trans_load.
  - destruct (caller σ) eqn:Hcal; [discriminate|]. simpl.
    intros (s & Hi & [= <- <-])%bind_Some_inv. by eapply trans_close_enter.
  - intros ([i pc] & Hcal & Hstep)%bind_Some_inv.
    apply bind_Some_inv in Hstep as (s & Hi & Hstep).
    destruct pc as [|ph]; simpl in Hstep.
    { injection Hstep as <- <-. by apply trans_write_flag. }
    destruct ph; simpl in Hstep.
    + destruct (_changed s) eqn:Hc; [discriminate|]. injection Hstep as <- <-.
      by apply trans_close_spin.
    + injection Hstep as <- <-. by apply trans_close_stop.
    + destruct (_shutdown_lock s) eqn:Hk; [discriminate|]. injection Hstep as <- <-.
      by apply trans_close_acquire.
    + destruct (_handle s) as [h|] eqn:Hh; simpl in Hstep.
      2:{ injection Hstep as <- <-. eapply trans_close_raise; eauto. }
      unfold handle_flush in Hstep. destruct (h_closed h) eqn:Hc.
      { injection Hstep as <- <-. eapply trans_close_raise; eauto. }
      destruct (spill _ h (disk σ)) as [[fs h']|] eqn:Hs; injection Hstep as <- <-.
      * by eapply trans_close_flush.
      * eapply trans_close_raise; eauto.
    + destruct (_handle s) as [h|] eqn:Hh; simpl in Hstep.
      2:{ injection Hstep as <- <-. eapply trans_close_raise; eauto. }
      unfold handle_close in Hstep. destruct (h_closed h) eqn:Hc.
      { injection Hstep as <- <-. by eapply trans_close_handle_closed. }
      destruct (spill _ h (disk σ)) as [[fs h']|] eqn:Hs; injection Hstep as <- <-.
      * by eapply trans_close_handle.
      * eapply trans_close_raise; eauto.
    + injection Hstep as <- <-. by apply trans_close_discard.
  - intros (s & Hi & Hstep)%bind_Some_inv.
    apply bind_Some_inv in Hstep as ([s' ev'] & Hw & [= <- <-]).
    unfold writer_step in Hw.
    destruct (writer s) as [[| | | | | | |e]|] eqn:Hpc; try discriminate.
    + destruct (_shutdown_lock s) eqn:Hk; [discriminate|]. injection Hw as <- <-.
      by apply trans_writer_acquire.
    + injection Hw as <- <-. by apply trans_writer_loop.
    + injection Hw as <- <-. by apply trans_writer_test.
    + injection Hw as <- <-. by apply trans_writer_clear.
    + destruct (_handle s) as [h|] eqn:Hh.
      2:{ injection Hw as <- <-. apply trans_writer_crash; auto. }
      destruct (_data s) as [v|] eqn:Hd.
      2:{ injection Hw as <- <-. apply trans_writer_crash; auto. }
      destruct (encode v) as [b|] eqn:He.
      2:{ injection Hw as <- <-. by eapply trans_writer_codec. }
      destruct (h_closed h) eqn:Hc; injection Hw as <- <-.
      * apply trans_writer_crash; eauto 6.
      * by eapply trans_writer_flush.
    + injection Hw as <- <-. by apply trans_writer_release.
  - intros (s & Hi & Hstep)%bind_Some_inv.
    apply bind_Some_inv in Hstep as (h & Hh & Hstep).
    destruct (h_closed h) eqn:Hc; [discriminate|].
    apply bind_Some_inv in Hstep as ([fs h'] & Hsp & [= <- <-]).
    by eapply trans_spill.
  - intros (s & Hi & Hstep)%bind_Some_inv.
    apply bind_Some_inv in Hstep as ([s' ev'] & Hw & [= <- <-]).
    apply writer_fault_inv in Hw as (Hpc & -> & -> & h & v & b & Hh & Hc & Hd & He).
    by eapply trans_refuse.
Qed.

(** ** The claims *)

(** C6. [write(value)] on an instance opened with an access mode other
    than ["r+"] raises [PermissionError] and changes nothing: neither
    the document nor the [_changed] flag.  On an instance opened with
    ["r+"] the call assigns the document, and, whatever the writer
    threads and file buffers do in between, its last statement is never
    blocked: it sets [_changed], and the call returns having touched
    neither the file system nor the handle nor the writer thread. *)
Theorem write_guard_and_effect σ (i : nat) s (m : string) (data : option Doc) :
  caller σ = None → heap σ !! i = Some s → _access_mode s = Some m →
  (m ≠ "r+" →
     write data s = Raise PermissionError ∧
     step hash (Call (CWrite i data)) σ = Some (σ, Raised PermissionError)) ∧
  (m = "r+" →
     (∃ s', write data s = Ret s' ∧
            _data s' = Some data ∧ _changed s' = true ∧
            s' = set_changed true (set_data data s)) ∧
     ∃ σ1, step hash (Call (CWrite i data)) σ = Some (σ1, Tau) ∧
       ∀ bg σ2 evs,
         Forall (λ l, background l = true) bg →
         run hash bg σ1 = Some (σ2, evs) →
         ∃ σ3 s2 s3,
           heap σ2 !! i = Some s2 ∧
           step hash Main σ2 = Some (σ3, Returned) ∧
           heap σ3 !! i = Some s3 ∧
           _changed s3 = true ∧ _data s3 = Some data ∧
           s3 = set_changed true s2 ∧
           _data s2 = Some data ∧
           _handle s3 = _handle s2 ∧ writer s3 = writer s2 ∧
           _running s3 = _running s2 ∧ _shutdown_lock s3 = _shutdown_lock s2 ∧
           caller σ3 = None ∧ disk σ3 = disk σ2 ∧ _paths σ3 = _paths σ2).
Proof.
  intros Hcal Hi Hm. split; intros Hmode.
  - unfold write, write_data. simpl. rewrite Hcal. simpl. rewrite Hi. simpl.
    unfold write_data. rewrite Hm. simpl. by rewrite bool_decide_eq_false_2.
  - subst m. unfold write, write_data. simpl. rewrite Hcal. simpl. rewrite Hi. simpl.
    unfold write_data. rewrite Hm. simpl. split; [by eexists|].
    eexists. split; [done|]. intros bg σ2 evs Hbg Hrun.
    assert (Hi1 : heap (set_caller (Some (i, WriteSetChanged))
                          (store i (set_data data s) σ)) !! i
                  = Some (set_data data s)).
    { simpl. apply list_lookup_insert_eq. by eapply lookup_lt_Some. }
    destruct (run_background _ _ _ _ _ _ Hbg Hrun Hi1) as (Hc & s2 & Hi2 & Hd & _).
    simpl in Hc, Hd.
    exists (set_caller None (store i (set_changed true s2) σ2)), s2,
           (set_changed true s2).
    split_and!; try done.
    + simpl. rewrite Hc. simpl. by rewrite Hi2.
    + simpl. apply list_lookup_insert_eq. by eapply lookup_lt_Some.
Qed.




(** C3 (amended). [load()] on an instance whose path leads to a regular
    file: when the file is empty the document becomes [None]; when it
    is not, the document becomes [loads(decompress(bytes))], which is
    [None] again when the stored value is the JSON [null]; when
    [decompress] or [loads] raises, the call raises and the instance,
    its document included, is left as it was.  So after [load()] the
    document is [None] exactly when the file is empty or holds a
    stored [null]. *)
Theorem load_by_file_content σ (i : nat) s p (db_bytes : bytes) :
  caller σ = None → heap σ !! i = Some s →
  _path s = Some p → stat (disk σ) p = Some (File db_bytes) →
  (db_bytes = [] →
     step hash (Call (CLoad i)) σ = Some (store i (set_data None s) σ, Returned)) ∧
  (∀ v, db_bytes ≠ [] → decode db_bytes = Some v →
     step hash (Call (CLoad i)) σ = Some (store i (set_data v s) σ, Returned)) ∧
  (db_bytes ≠ [] → decode db_bytes = None →
     step hash (Call (CLoad i)) σ = Some (σ, Raised CodecError)) ∧
  (∀ s', load (disk σ) s = Ret s' →
     (read s' = Ret None ↔ db_bytes = [] ∨ decode db_bytes = Some None)).
Proof.
  intros Hcal Hi Hp Hst.
  assert (Hstep : step hash (Call (CLoad i)) σ =
            match load (disk σ) s with
            | Ret s' => Some (store i s' σ, Returned)
            | Raise e => Some (σ, Raised e)
            | Hang => None
            end).
  { simpl. rewrite Hcal. simpl. by rewrite Hi. }
  rewrite Hstep. unfold load. rewrite Hp. simpl. rewrite Hst.
  destruct db_bytes as [|b0 bs].
  - split_and!; try done. intros s' [= <-]. unfold read. simpl. split; auto.
  - split_and!; try done.
    + intros v _ ->. done.
    + intros _ ->. done.
    + intros s'. destruct (decode (b0 :: bs)) as [v|]; [|discriminate].
      intros [= <-]. unfold read. simpl. split.
      * intros [= ->]. by right.
      * intros [?|[= ->]]; done.
Qed.

(** C4. Opening a path that does not exist with access mode ["r"]: the
    constructor calls [self.close()] before it raises
    [FileNotFoundError], and [close] reads the slot [_handle], which has
    not been assigned.  The call therefore raises the [AttributeError]
    of the missing slot instead, and the hash of the path, added by
    [__new__], stays in [_paths]. *)
Theorem open_missing_read_only σ p :
  caller σ = None → hash p ∉ _paths σ → exists_ (disk σ) p = false →
  ∃ σ',
    step hash (Call (COpen p "r")) σ
      = Some (σ', Raised (AttributeError_slot "_handle")) ∧
    hash p ∈ _paths σ' ∧ heap σ' = heap σ ∧ disk σ' = disk σ.
Proof.
  intros Hcal Hfresh Hex. simpl. rewrite Hcal.
  unfold BetterJSONStorage, __new__. rewrite bool_decide_eq_false_2 by done.
  rewrite init_unfold. unfold init_result. simpl.
  unfold exists_ in Hex. simpl.
  destruct (stat (disk σ) p) eqn:Hst; [discriminate|].
  eexists. split; [done|]. simpl. split_and!; try done. set_solver.
Qed.

(** C5. The failures of [__init__] that are announced by
    [self.close()] followed by [raise] (an access mode that is neither
    ["r"] nor ["r+"], a missing file with ["r"], a path that leads to a
    directory) all end in [close] raising on the unassigned slot
    [_handle], before [_paths.discard]: the entry that [__new__] added
    to [_paths] is not released. *)
Theorem failed_open_keeps_registry_entry σ p (access_mode : string) :
  caller σ = None → hash p ∉ _paths σ →
  mode_ok access_mode = false ∨
  stat (disk σ) p = Some Dir ∨
  (stat (disk σ) p = None ∧ access_mode = "r") →
  step hash (Call (COpen p access_mode)) σ
    = Some (set_paths (_paths σ ∪ {[ hash p ]}) σ,
            Raised (AttributeError_slot "_handle")).
Proof.
  intros Hcal Hfresh Hwhy. simpl. rewrite Hcal.
  unfold BetterJSONStorage, __new__. rewrite bool_decide_eq_false_2 by done.
  rewrite init_unfold. unfold init_result. simpl.
  destruct Hwhy as [Hm|[Hd|[Hn ->]]].
  - by rewrite Hm.
  - rewrite Hd. by destruct (mode_ok access_mode).
  - rewrite Hn. done.
Qed.

(** C8. In every reachable state two instances with an open handle
    have different paths; constructing an instance on the path of one
    whose handle is open raises the [AttributeError] of [__new__] and
    changes nothing; and when [close] executes its last statement the
    hash of the path leaves [_paths], so that the path can be opened
    again, with ["r"] or with ["r+"]. *)
Theorem one_open_session_per_path σ :
  reachable hash σ →
  (∀ i j si sj,
     heap σ !! i = Some si → heap σ !! j = Some sj →
     is_open si = true → is_open sj = true → _path si = _path sj → i = j) ∧
  (∀ i s p access_mode,
     caller σ = None → heap σ !! i = Some s →
     is_open s = true → _path s = Some p →
     step hash (Call (COpen p access_mode)) σ
       = Some (σ, Raised AttributeError_exists)) ∧
  (∀ i s p,
     caller σ = Some (i, Closing CloseDiscard) → heap σ !! i = Some s →
     _path s = Some p →
     ∃ σ1, step hash Main σ = Some (σ1, Returned) ∧
           (hash p ∉ _paths σ1) ∧
           ∀ access_mode, mode_ok access_mode = true →
             ∃ σ2 s2,
               step hash (Call (COpen p access_mode)) σ1 = Some (σ2, Returned) ∧
               heap σ2 !! length (heap σ1) = Some s2 ∧
               _path s2 = Some p ∧ _access_mode s2 = Some access_mode ∧
               is_open s2 = true).
Proof.
  intros [Hall Hdist]%invariant_reachable. split_and!.
  - intros i j si sj Hi Hj Hoi Hoj Hpath.
    apply (Hdist i j si sj); try done; try by left.
    destruct (inv_slots _ _ _ _ (Hall i si Hi)) as (pi & _ & _ & Hpi & _ & _ & _ & Hhi & _).
    destruct (inv_slots _ _ _ _ (Hall j sj Hj)) as (pj & _ & _ & Hpj & _ & _ & _ & Hhj & _).
    congruence.
  - intros i s p am Hcal Hi Ho Hp. simpl. rewrite Hcal.
    destruct (inv_slots _ _ _ _ (Hall i s Hi)) as (p' & _ & _ & Hp' & _ & _ & _ & Hh & _).
    assert (p' = p) as -> by congruence.
    pose proof (inv_registered _ _ _ _ (Hall i s Hi) (or_introl Ho)) as Hin.
    rewrite Hh in Hin.
    unfold BetterJSONStorage, __new__. by rewrite bool_decide_eq_true_2.
  - intros i s p Hcal Hi Hp.
    destruct (inv_slots _ _ _ _ (Hall i s Hi)) as (p' & _ & _ & Hp' & _ & _ & _ & Hh & _).
    assert (p' = p) as -> by congruence.
    destruct (inv_file _ _ _ _ (Hall i s Hi) p Hp) as [Hne [c Hlk]].
    eexists. split; [|split].
    + simpl. rewrite Hcal. simpl. rewrite Hi. simpl. done.
    + simpl. rewrite Hh. set_solver.
    + intros am Ham. simpl.
      unfold BetterJSONStorage, __new__. simpl.
      rewrite bool_decide_eq_false_2 by (rewrite Hh; set_solver).
      rewrite init_unfold. unfold init_result. simpl. rewrite Ham. simpl.
      assert (Hst : stat (disk σ) p = Some (File c)) by (by destruct p).
      rewrite Hst. eexists _, _. split; [done|]. simpl.
      split; [by apply list_lookup_middle|done].
Qed.

(** Only the writer of an instance, at its write statement, flushes. *)
Lemma flushed_inv σ σ' l (i : nat) (b : bytes) :
  step hash l σ = Some (σ', Flushed i b) →
  ∃ s, heap σ !! i = Some s ∧ writer s = Some WFlush.
Proof.
  destruct l as [[p am|j data|j|j]| |j|j n|j]; simpl.
  - destruct (caller σ); [discriminate|].
    by destruct (BetterJSONStorage hash p am σ) as [σ1 [k|e|]].
  - destruct (caller σ); [discriminate|]. simpl.
    intros (sj & Hj & Hstep)%bind_Some_inv. by destruct (write_data data sj).
  - destruct (caller σ); [discriminate|]. simpl.
    intros (sj & Hj & Hstep)%bind_Some_inv. by destruct (load (disk σ) sj).
  - destruct (caller σ); [discriminate|]. simpl.
    by intros (sj & Hj & Hstep)%bind_Some_inv.
  - intros ([j pc] & Hcal & Hstep)%bind_Some_inv.
    apply bind_Some_inv in Hstep as (sj & Hj & Hstep).
    destruct pc as [|ph]; simpl in Hstep; [discriminate|].
    by destruct (close_phase ph σ sj) as [|[σ1 sj']|e], (close_next ph).
  - intros (sj & Hj & Hstep)%bind_Some_inv.
    apply bind_Some_inv in Hstep as ([sj' ev'] & Hw & [= <- ->]).
    unfold writer_step in Hw.
    destruct (writer sj) as [[| | | | | | |e]|] eqn:Hpc; try discriminate;
      repeat match type of Hw with
             | context [if ?c then _ else _] => destruct c
             | context [match ?x with _ => _ end] => destruct x
             end; try discriminate.
    injection Hw as _ -> _. eauto.
  - intros (sj & Hj & Hstep)%bind_Some_inv.
    apply bind_Some_inv in Hstep as (h & Hh & Hstep).
    destruct (h_closed h); [discriminate|].
    by apply bind_Some_inv in Hstep as ([fs h'] & Hsp & [=]).
  - intros (sj & Hj & Hstep)%bind_Some_inv.
    apply bind_Some_inv in Hstep as ([sj' ev'] & Hw & [= <- ->]).
    by apply writer_fault_inv in Hw as (_ & _ & [=] & _).
Qed.

(** C9 (amended). Every successful construction starts the writer
    thread, with ["r"] as with ["r+"].  In an instance that was not
    opened with ["r+"] the [_changed] flag is never set, and no
    schedule makes its writer thread write to the handle. *)
Theorem writer_started_in_every_mode σ :
  (∀ p access_mode σ',
     step hash (Call (COpen p access_mode)) σ = Some (σ', Returned) →
     ∃ s, heap σ' = heap σ ++ [s] ∧
          _access_mode s = Some access_mode ∧ writer s = Some WAcquire) ∧
  (reachable hash σ →
   ∀ i s, heap σ !! i = Some s → _access_mode s ≠ Some "r+" →
     _changed s = false ∧
     ∀ ls σ' evs, run hash ls σ = Some (σ', evs) → ∀ b, Flushed i b ∉ evs).
Proof.
  split.
  - intros p am σ'. simpl. destruct (caller σ); [discriminate|].
    destruct (BetterJSONStorage hash p am σ) as [σ1 r] eqn:Hb.
    apply construct_cases in Hb as (_ & _ & _ & Hcase).
    destruct Hcase as [(e & -> & _)|(-> & _ & _ & _ & Hheap & _)]; [discriminate|].
    intros [= <-]. eauto.
  - intros Hr i s Hi Hm. split.
    { pose proof (invariant_reachable _ Hr) as [Hall _].
      by destruct (inv_read_only _ _ _ _ (Hall i s Hi) Hm). }
    intros ls. revert σ s Hr Hi Hm.
    induction ls as [|l ls IH]; intros σ s Hr Hi Hm σ' evs Hrun b.
    + injection Hrun as <- <-. apply not_elem_of_nil.
    + apply run_cons_inv in Hrun as (σ1 & ev & evs' & Hstep & Hrun & ->).
      destruct (step_lookup _ _ _ _ _ _ Hstep Hi) as (s1 & Hi1 & [Ha _ _ _ _ _]).
      intros [<-|Hin]%elem_of_cons.
      * apply flushed_inv in Hstep as (s0 & Hi0 & Hpc).
        assert (s0 = s) as -> by congruence.
        pose proof (invariant_reachable _ Hr) as [Hall _].
        destruct (inv_read_only _ _ _ _ (Hall i s Hi) Hm) as (_ & Hfl & _).
        by rewrite Hpc in Hfl.
      * eapply (IH σ1 s1); eauto.
        -- by eapply reachable_step.
        -- by rewrite Ha.
Qed.

(** C10. When [close] has executed its last statement on an instance
    opened with ["r+"], a later [write(value)] raises nothing: it
    assigns the document and sets [_changed].  But the writer thread
    has stopped for good and the handle is closed: whatever is
    scheduled afterwards, no flush of that instance occurs and its
    handle stays closed, so the value never reaches the file. *)
Theorem write_after_close_is_lost σ (i : nat) s (data : option Doc) :
  reachable hash σ →
  caller σ = Some (i, Closing CloseDiscard) → heap σ !! i = Some s →
  _access_mode s = Some "r+" →
  ∃ σ1,
    step hash Main σ = Some (σ1, Returned) ∧
    (∃ σ2 σ3 s3,
       step hash (Call (CWrite i data)) σ1 = Some (σ2, Tau) ∧
       step hash Main σ2 = Some (σ3, Returned) ∧
       heap σ3 !! i = Some s3 ∧
       _data s3 = Some data ∧ _changed s3 = true) ∧
    (∀ ls σ' evs,
       run hash ls σ1 = Some (σ', evs) →
       (∀ b, Flushed i b ∉ evs) ∧
       ∃ s' h, heap σ' !! i = Some s' ∧
               _handle s' = Some h ∧ h_closed h = true).
Proof.
  intros [Hall _]%invariant_reachable Hcal Hi Hm.
  pose proof (Hall i s Hi) as Hs.
  destruct (inv_slots _ _ _ _ Hs) as (p & m & h & Hp & _ & Hh & _ & _ & _ & _ & Hwr).
  destruct (inv_closing _ _ _ _ Hs CloseDiscard Hcal eq_refl) as [Hlock Hhold].
  pose proof (inv_close_discard _ _ _ _ Hs Hcal) as Hclosed.
  assert (Hlt : i < length (heap σ)) by (by eapply lookup_lt_Some).
  assert (Hst : stopped s).
  { unfold stopped. destruct (writer s) as [[| | | | | | |e]|]; try done. }
  assert (Hhc : h_closed h = true).
  { unfold is_open in Hclosed. rewrite Hh in Hclosed. by destruct (h_closed h). }
  set (σ1 := set_caller None (store i s (set_paths (_paths σ ∖ {[ _hash s ]}) σ))).
  assert (Hi1 : heap σ1 !! i = Some s) by (simpl; by apply list_lookup_insert_eq).
  exists σ1. split_and!.
  - simpl. rewrite Hcal. simpl. by rewrite Hi.
  - set (σ2 := set_caller (Some (i, WriteSetChanged)) (store i (set_data data s) σ1)).
    exists σ2, (set_caller None (store i (set_changed true (set_data data s)) σ2)),
           (set_changed true (set_data data s)).
    assert (Hi2 : heap σ2 !! i = Some (set_data data s)).
    { simpl. apply list_lookup_insert_eq. by rewrite length_insert. }
    split_and!; try done.
    + change (step hash (Call (CWrite i data)) σ1)
        with (heap σ1 !! i ≫= λ self,
                match write_data data self with
                | Ret self' =>
                    Some (set_caller (Some (i, WriteSetChanged)) (store i self' σ1), Tau)
                | Raise e => Some (σ1, Raised e)
                | Hang => None
                end).
      rewrite Hi1. simpl. unfold write_data. rewrite Hm. done.
    + change (step hash Main σ2)
        with (heap σ2 !! i ≫= λ self, main_step i WriteSetChanged self σ2).
      rewrite Hi2. done.
    + simpl. apply list_lookup_insert_eq. by rewrite !length_insert.
  - intros ls σ' evs Hrun.
    destruct (run_stopped _ _ _ _ _ _ Hrun Hi1 Hst Hclosed)
      as (s' & Hi' & _ & _ & Hh' & Hev).
    split; [done|]. exists s', h. split_and!; congruence.
Qed.

End Properties.

(** * Further properties *)

Section Further.
Context {Doc : Type} {codec : Codec Doc}.
Variable hash : path → Z.

Implicit Types (σ : @process Doc) (self s : @session Doc) (p : path).



(** ** Construction *)

(** Files keep their content. *)
Lemma mkdir_each_files (qs : list path) (fs : filesystem) (q : path) (c : bytes) :
  fs !! q = Some (File c) → (mkdir_each qs fs).1 !! q = Some (File c).
Proof.
  revert fs. induction qs as [|q0 qs IH]; intros fs Hq; simpl; [done|].
  destruct (stat fs q0) as [[|c0]|] eqn:Hst; [by apply IH|done|].
  apply IH. rewrite lookup_insert_ne; [done|].
  intros ->. destruct q; [discriminate|]. simpl in Hst. congruence.
Qed.

(** When [mkdir] succeeds every directory it was asked for exists. *)
Lemma mkdir_each_dirs (qs : list path) (fs fs' : filesystem) :
  mkdir_each qs fs = (fs', true) →
  (∀ q, stat fs q = Some Dir → stat fs' q = Some Dir) ∧
  (∀ q, q ∈ qs → stat fs' q = Some Dir).
Proof.
  revert fs. induction qs as [|q0 qs IH]; intros fs; simpl.
  - intros [= <-]. split; [done|]. intros q Hq. by apply elem_of_nil in Hq.
  - destruct (stat fs q0) as [[|c0]|] eqn:Hst; [| discriminate |].
    + intros H. destruct (IH _ H) as [Hkeep Hall]. split; [done|].
      intros q [->|Hq]%elem_of_cons; auto.
    + intros H. destruct (IH _ H) as [Hkeep Hall].
      assert (Hins : ∀ q, stat fs q = Some Dir →
                          stat (<[q0 := Dir]> fs) q = Some Dir).
      { intros q Hq. destruct q as [|x q]; [done|]. simpl in *.
        destruct (decide (q0 = x :: q)) as [->|Hne];
          [by rewrite lookup_insert_eq|by rewrite lookup_insert_ne]. }
      split; [auto|].
      intros q [->|Hq]%elem_of_cons; [|auto].
      apply Hkeep. destruct q0; [discriminate|]. simpl. by rewrite lookup_insert_eq.
Qed.

(** A constructor call leaves every regular file other than the one at
    its path as it was; when it raises, that one too. *)
Lemma construct_files p access_mode σ σ' r :
  BetterJSONStorage hash p access_mode σ = (σ', r) →
  ∀ q c, disk σ !! q = Some (File c) →
         (q ≠ p ∨ ∃ e, r = Raise e) → disk σ' !! q = Some (File c).
Proof.
  unfold BetterJSONStorage, __new__. case_bool_decide.
  { intros [= <- <-]. auto. }
  rewrite init_unfold. unfold init_result. simpl.
  destruct (mode_ok access_mode); simpl; [|by intros [= <- <-]].
  destruct (stat (disk σ) p) as [[|c0]|] eqn:Hst; simpl.
  - by intros [= <- <-].
  - intros [= <- <-] q c Hq [Hne|[e [=]]]. simpl. by rewrite lookup_insert_ne.
  - case_bool_decide; [by intros [= <- <-]|].
    pose proof (mkdir_each_files (prefixes_from [] (parent p)) (disk σ)) as Hk.
    unfold mkdir_parents.
    destruct (mkdir_each _ _) as [fs [|]]; simpl in *; intros [= <- <-] q c Hq Hwhy; simpl.
    + destruct Hwhy as [Hne|[e [=]]]. rewrite !lookup_insert_ne by done. by apply Hk.
    + by apply Hk.
Qed.

(** X1. A constructor call that returns has emptied (or created) the
    file at its path, registered the hash of the path, and appended one
    instance to the heap: its document is [None], [_changed] is clear,
    [_running] is set, the shutdown lock is free, the handle is open with
    nothing buffered, and the writer thread stands before its
    [acquire].  The other instances and the other regular files are as
    they were. *)
Theorem construction_result σ σ' p (access_mode : string) :
  step hash (Call (COpen p access_mode)) σ = Some (σ', Returned) →
  heap σ' = heap σ ++ [constructed hash p access_mode] ∧
  disk σ' !! p = Some (File []) ∧
  _paths σ' = _paths σ ∪ {[ hash p ]} ∧
  (hash p ∉ _paths σ) ∧ mode_ok access_mode = true ∧
  read (constructed (Doc := Doc) hash p access_mode) = Ret None ∧
  (∀ q c, q ≠ p → disk σ !! q = Some (File c) → disk σ' !! q = Some (File c)).
Proof.
  simpl. destruct (caller σ); [discriminate|].
  destruct (BetterJSONStorage hash p access_mode σ) as [σ1 r] eqn:Hb.
  pose proof (construct_files _ _ _ _ _ Hb) as Hfiles.
  apply construct_cases in Hb as (_ & _ & _ & Hcase).
  destruct Hcase as [(e & -> & _)|(-> & Hfresh & Hm & Hne & Hheap & Hd & Hps)];
    [discriminate|].
  intros [= <-]. split_and!; try done. intros q c Hq Hlk. apply (Hfiles q c); auto.
Qed.

(** X2. With ["r+"] a path at which nothing exists is created: when the
    missing directories above it can be made, the call returns, the file
    exists and is empty, every directory above it exists, and the
    document is [None]. *)
Theorem construction_creates_store σ p (fs : filesystem) :
  caller σ = None → hash p ∉ _paths σ → stat (disk σ) p = None →
  mkdir_parents (parent p) (disk σ) = (fs, true) →
  ∃ σ', step hash (Call (COpen p "r+")) σ = Some (σ', Returned) ∧
        disk σ' = <[p := File []]> fs ∧
        stat (disk σ') p = Some (File []) ∧
        (∀ q, q ∈ prefixes_from [] (parent p) → q ≠ p → stat (disk σ') q = Some Dir) ∧
        heap σ' = heap σ ++ [constructed hash p "r+"] ∧
        read (constructed (Doc := Doc) hash p "r+") = Ret None.
Proof.
  intros Hcal Hfresh Hst Hmk. simpl. rewrite Hcal.
  unfold BetterJSONStorage, __new__. rewrite bool_decide_eq_false_2 by done.
  rewrite init_unfold. unfold init_result. simpl. rewrite Hst, Hmk. simpl.
  assert (Hp : p ≠ []) by (intros ->; discriminate).
  eexists. split; [done|]. simpl. split_and!; try done.
  - by rewrite insert_insert_eq.
  - destruct p; [done|]. simpl. by rewrite lookup_insert_eq.
  - intros q Hq Hne. unfold mkdir_parents in Hmk.
    apply mkdir_each_dirs in Hmk as [_ Hall].
    specialize (Hall q Hq). destruct q as [|x q]; [done|]. simpl in *.
    by rewrite !lookup_insert_ne.
Qed.


(** ** A second invariant *)

Lemma invariant2_boot (fs : filesystem) : invariant2 (@boot Doc fs).
Proof. intros i s Hi. simpl in Hi. by rewrite lookup_nil in Hi. Qed.

Ltac lookup_cases H :=
  simpl in H;
  first
    [ apply list_lookup_insert_Some in H as [(<- & <- & _)|[? H]]
    | idtac ].

Ltac old_facts Hinv Hinv2 i s Hi :=
  let H1 := fresh "Hold" in
  let H2 := fresh "Hold2" in
  pose proof (proj1 Hinv i s Hi) as H1;
  pose proof (Hinv2 i s Hi) as H2;
  destruct H1 as [Hsl Hfi Hlo Hcl Hch Hcd Hro Hre];
  destruct H2 as [Hclosed Hcc Hcr Hclr];
  destruct Hsl as (p0 & m0 & h0 & Hp0 & Hm0 & Hh0 & Hhp0 & Hhash0 & Hmok0 & Hd0 & Hwr0).

Ltac rewrite_facts :=
  repeat match goal with
         | H : _handle ?s = Some _, H' : context [_handle ?s] |- _ =>
             lazymatch H' with H => fail | _ => rewrite H in H' end
         | H : h_closed ?h = _, H' : context [h_closed ?h] |- _ =>
             lazymatch H' with H => fail | _ => rewrite H in H' end
         | H : writer ?s = Some _, H' : context [writer ?s] |- _ =>
             lazymatch H' with H => fail | _ => rewrite H in H' end
         | H : caller ?s = _, H' : context [caller ?s] |- _ =>
             lazymatch H' with H => fail | _ => rewrite H in H' end
         | H : _handle _ = Some _ |- _ => rewrite H
         | H : h_closed _ = _ |- _ => rewrite H
         | H : writer _ = Some _ |- _ => rewrite H
         | H : caller _ = _ |- _ => rewrite H
         end.

Ltac open_spill :=
  repeat match goal with
         | H : spill _ _ _ = Some _ |- _ =>
             unfold spill in H;
             destruct (disk _ !! _) as [[|?]|]; try discriminate;
             injection H as <- <-
         end.

Ltac use_closing :=
  repeat match goal with
         | H : ∀ ph, Some (?i, Closing ?x) = Some (?i, Closing ph) → _ |- _ =>
             specialize (H x eq_refl)
         end;
  repeat match goal with
         | H : ?a ≠ ?b → _ |- _ =>
             let X := fresh in
             assert (X : a ≠ b) by discriminate; specialize (H X); clear X
         end.

Ltac inv2_build :=
  unfold is_open, registered in *; open_spill;
  constructor; unfold is_open; simpl; rewrite_facts; use_closing; cbn in *;
  repeat match goal with
         | |- context [if ?b then _ else _] => destruct b eqn:?
         end;
  try done; try (timeout 30 naive_solver).

Lemma invariant2_step l σ σ' ev :
  invariant hash σ → invariant2 σ → trans hash l σ ev σ' → invariant2 σ'.
Proof.
  intros Hinv Hinv2 Htrans i' s' Hi'.
  destruct Htrans.
  all: try (match goal with
            | Hb : BetterJSONStorage _ _ _ _ = _ |- _ =>
                apply construct_cases in Hb as (Hc & _ & _ & Hcase)
            end).
  1:{ (* a constructor call that returns *)
    destruct Hcase as [(e & [=] & _)|(_ & _ & _ & _ & Hheap & _)].
    rewrite Hheap in Hi'.
    apply lookup_snoc_Some in Hi' as [[_ Hi']|[-> <-]].
    + pose proof (Hinv2 _ _ Hi') as [Ha Hb Hc' Hd].
      constructor; try done; intros ph; rewrite Hc, H; discriminate.
    + constructor; simpl; try done; intros ph; rewrite Hc, H; discriminate. }
  1:{ destruct Hcase as [(e' & _ & Hheap)|(? & _)]; [|discriminate].
    rewrite Hheap in Hi'.
    pose proof (Hinv2 _ _ Hi') as [Ha Hb Hc' Hd].
    constructor; try done; intros ph; rewrite Hc, H; discriminate. }
  all: simpl in Hi'.
  all: try (apply list_lookup_insert_Some in Hi' as [(<- & <- & _)|[Hne Hi']]).
  all: match goal with
       | Hact : heap _ !! ?j = Some ?sj |- session_inv2 _ ?j _ =>
           old_facts Hinv Hinv2 j sj Hact
       end.
  all: inv2_build.

Qed.

Lemma invariant2_reachable σ : reachable hash σ → invariant2 σ.
Proof.
  induction 1 as [fs|σ l σ' ev Hr IH Hstep].
  - apply invariant2_boot.
  - eapply invariant2_step; [by apply invariant_reachable|done|by apply step_trans].
Qed.



(** ** What callers can rely on *)

(** X3. In every reachable state the slots of every instance are
    assigned and its path leads to a regular file: [read()] returns, and
    [load()] can only fail in the codec. *)
Theorem read_and_load_never_miss σ (i : nat) s :
  reachable hash σ → heap σ !! i = Some s →
  (∃ v, read s = Ret v) ∧
  (∀ e, load (disk σ) s = Raise e → e = CodecError) ∧
  load (disk σ) s ≠ Hang.
Proof.
  intros [Hall _]%invariant_reachable Hi.
  pose proof (Hall i s Hi) as Hs.
  destruct (inv_slots _ _ _ _ Hs) as (p & m & h & Hp & _ & _ & _ & _ & _ & [v Hd] & _).
  destruct (inv_file _ _ _ _ Hs p Hp) as [Hne [c Hlk]].
  assert (Hst : stat (disk σ) p = Some (File c)) by (by destruct p).
  unfold read, load. rewrite Hd, Hp. simpl. rewrite Hst. split_and!.
  - eauto.
  - intros e. destruct c; [discriminate|]. by destruct (decode _); intros [= <-].
  - destruct c; [discriminate|]. by destruct (decode _).
Qed.

(** X4. In a reachable state the write statement of the writer thread
    never finds a slot unassigned or its handle closed: when the thread
    dies, it died of a failure of [dumps] or [compress], or of a write
    that the operating system refused. *)
Theorem writer_dies_of_codec_or_device σ σ' l (i : nat) (e : exn) :
  reachable hash σ → step hash l σ = Some (σ', Crashed i e) →
  (l = Writer i ∧ e = CodecError) ∨ (l = Refuse i ∧ e = OSError).
Proof.
  intros Hr Hstep.
  pose proof (invariant_reachable _ _ Hr) as [Hall _].
  pose proof (invariant2_reachable _ Hr) as Hall2.
  apply step_trans in Hstep. inversion Hstep; subst; [by left| |by right].
  match goal with
  | Hi : heap σ !! i = Some ?s, Hw : writer ?s = Some WFlush |- _ =>
      pose proof (Hall i s Hi) as Hs; pose proof (Hall2 i s Hi) as Hs2;
      destruct (inv_slots _ _ _ _ Hs) as (p & m & h & _ & _ & Hh & _ & _ & _ & [v Hd] & _);
      pose proof (inv_closed _ _ _ Hs2) as Hcl; unfold is_open in Hcl;
      rewrite Hh, Hw in Hcl
  end.
  match goal with
  | H : _ ∨ _ |- _ => destruct H as [?|[?|(h' & ? & Hc)]]; try congruence
  end.
  assert (h' = h) as -> by congruence. rewrite Hc in Hcl.
  by destruct (Hcl eq_refl) as (_ & ? & _).
Qed.

(** X5. [_running] is cleared once and for all. *)
Theorem running_is_terminal ls σ σ' evs (i : nat) s :
  run hash ls σ = Some (σ', evs) → heap σ !! i = Some s → _running s = false →
  ∃ s', heap σ' !! i = Some s' ∧ _running s' = false.
Proof.
  revert σ evs s. induction ls as [|l ls IH]; intros σ evs s Hrun Hi Hr.
  - injection Hrun as <- <-. eauto.
  - apply run_cons_inv in Hrun as (σ1 & ev & evs' & Hstep & Hrun & ->).
    assert (∃ s1, heap σ1 !! i = Some s1 ∧ _running s1 = false) as (s1 & Hi1 & Hr1).
    { apply step_trans in Hstep. destruct Hstep.
      all: try (match goal with
                | Hb : BetterJSONStorage _ _ _ _ = _ |- _ =>
                    apply construct_cases in Hb as (_ & _ & _ & Hcase);
                    destruct Hcase as [(? & _ & ->)|(_ & _ & _ & _ & -> & _)];
                    [|rewrite lookup_app_l by (by eapply lookup_lt_Some)]; eauto
                end).
      all: simpl; eauto.
      all: match goal with
           | Hact : heap _ !! ?j = Some ?sj |- _ =>
               destruct (decide (i = j)) as [->|Hne];
               [ rewrite list_lookup_insert_eq by (by eapply lookup_lt_Some);
                 assert (sj = s) as -> by congruence
               | rewrite list_lookup_insert_ne by done ]
           end; eauto.
      all: eexists; split; [done|]; simpl; try done.
    }
    eauto.
Qed.


Lemma process_eta σ : Process (_paths σ) (disk σ) (heap σ) (caller σ) = σ.
Proof. by destruct σ. Qed.

Lemma store_same σ (i : nat) s : heap σ !! i = Some s → store i s σ = σ.
Proof.
  intros Hi. unfold store, set_heap. rewrite list_insert_id by done.
  apply process_eta.
Qed.

Lemma run_app (ls1 ls2 : list (@label Doc)) σ σ1 evs1 :
  run hash ls1 σ = Some (σ1, evs1) →
  run hash (ls1 ++ ls2) σ
    = match run hash ls2 σ1 with
      | Some (σ2, evs2) => Some (σ2, evs1 ++ evs2)
      | None => None
      end.
Proof.
  revert σ evs1. induction ls1 as [|l ls1 IH]; intros σ evs1 Hrun.
  - injection Hrun as <- <-. simpl. by destruct (run hash ls2 σ) as [[??]|].
  - apply run_cons_inv in Hrun as (σ0 & ev & evs' & Hstep & Hrun & ->).
    simpl. rewrite Hstep. simpl. rewrite (IH _ _ Hrun).
    by destruct (run hash ls2 σ1) as [[??]|].
Qed.

(** X6. While [_running] is set and [_changed] is clear the writer thread
    is never blocked: it goes round its loop, two statements at a time,
    as often as it is scheduled, and leaves the process exactly as it
    was. *)
Theorem idle_writer_spins σ (i : nat) s (n : nat) :
  heap σ !! i = Some s → writer s = Some WLoop →
  _running s = true → _changed s = false →
  run hash (concat (replicate n [Writer i; Writer i])) σ
    = Some (σ, concat (replicate n [Tau; Tau])).
Proof.
  intros Hi Hpc Hr Hc.
  assert (Htwo : run hash [Writer i; Writer i] σ = Some (σ, [Tau; Tau])).
  { simpl. rewrite Hi. simpl. unfold writer_step. rewrite Hpc, Hr. simpl.
    rewrite list_lookup_insert_eq by (by eapply lookup_lt_Some). simpl.
    unfold writer_step. simpl. rewrite Hc. simpl.
    do 2 f_equal.
    assert (set_writer WLoop (set_writer WTest s) = s) as ->
      by (destruct s; simpl in *; by subst).
    unfold store, set_heap. simpl. rewrite list_insert_insert_eq.
    rewrite list_insert_id by done. apply process_eta. }
  induction n as [|n IH]; [done|].
  change (concat (replicate (S n) [Writer i; Writer i]))
    with ([Writer i; Writer i] ++ concat (replicate n [@Writer Doc i; Writer i])).
  rewrite (run_app _ _ _ _ _ Htwo), IH. done.
Qed.


(** X7. When the writer thread has died, [close()] never returns: in
    every later state the call has not passed
    [self._shutdown_lock.acquire()], at which it is blocked; the handle
    is never closed and the hash of the path never leaves [_paths]. *)
Theorem dead_writer_blocks_close σ (i : nat) s (e : exn) :
  reachable hash σ → heap σ !! i = Some s → writer s = Some (WCrashed e) →
  ∀ ls σ' evs,
    run hash ls σ = Some (σ', evs) →
    ∃ s', heap σ' !! i = Some s' ∧
          is_open s' = true ∧ _hash s' ∈ _paths σ' ∧
          (∀ ph, caller σ' = Some (i, Closing ph) → after_acquire ph = false) ∧
          (caller σ' = Some (i, Closing CloseAcquire) → step hash Main σ' = None).
Proof.
  intros Hr Hi Hpc ls σ' evs Hrun.
  destruct (run_stopped_writer _ _ _ _ _ _ _ Hrun Hi) as (s' & Hi' & _ & Hw & _).
  { unfold stopped. by rewrite Hpc. }
  rewrite Hpc in Hw.
  pose proof (reachable_run _ _ _ _ _ Hr Hrun) as Hr'.
  pose proof (invariant_reachable _ _ Hr') as [Hall _].
  pose proof (invariant2_reachable _ Hr' i s' Hi') as Hs2.
  pose proof (Hall i s' Hi') as Hs.
  assert (Hlock : _shutdown_lock s' = true)
    by (apply (inv_lock _ _ _ _ Hs); by rewrite Hw).
  assert (Hopen : is_open s' = true).
  { destruct (is_open s') eqn:Ho; [done|].
    destruct (inv_closed _ _ _ Hs2 Ho) as (_ & Hh & _). by rewrite Hw in Hh. }
  exists s'. split_and!; try done.
  - apply (inv_registered _ _ _ _ Hs). by left.
  - intros ph Hcal. destruct (after_acquire ph) eqn:Hph; [|done].
    destruct (inv_closing _ _ _ _ Hs ph Hcal Hph) as [_ Hh]. by rewrite Hw in Hh.
  - intros Hcal. simpl. rewrite Hcal. simpl. rewrite Hi'. simpl. by rewrite Hlock.
Qed.

(** X8. An instance whose handle is closed is closed for good: whatever
    is called on it afterwards, the handle stays closed, and a second
    [close()] never passes [self._shutdown_lock.acquire()], so it never
    returns. *)
Theorem closed_instance_stays_closed ls σ σ' evs (i : nat) s :
  reachable hash σ → heap σ !! i = Some s → is_open s = false →
  (∀ ph, caller σ ≠ Some (i, Closing ph)) →
  run hash ls σ = Some (σ', evs) →
  ∃ s', heap σ' !! i = Some s' ∧ is_open s' = false ∧
        _handle s' = _handle s ∧
        ∀ ph, caller σ' = Some (i, Closing ph) → after_acquire ph = false.
Proof.
  intros Hr Hi Ho Hcal Hrun.
  assert (Hcal' : ∀ ph, caller σ = Some (i, Closing ph) → after_acquire ph = false)
    by (intros ph ?; by destruct (Hcal ph)).
  clear Hcal. revert σ evs s Hr Hi Ho Hcal' Hrun.
  induction ls as [|l ls IH]; intros σ evs s Hr Hi Ho Hcal Hrun.
  - injection Hrun as <- <-. eauto.
  - apply run_cons_inv in Hrun as (σ1 & ev & evs' & Hstep & Hrun & ->).
    destruct (inv_closed _ _ _ (invariant2_reachable _ Hr i s Hi) Ho) as (Hlock & Hhold & _).
    assert (Hst : stopped s).
    { unfold stopped. destruct (writer s) as [[| | | | | | |?]|]; try done. }
    destruct (step_lookup _ _ _ _ _ _ _ Hstep Hi) as (s1 & Hi1 & [_ _ _ _ Hkc _]).
    specialize (Hkc Hst Ho).
    assert (Ho1 : is_open s1 = false) by (unfold is_open in *; by rewrite Hkc).
    assert (Hcal1 : ∀ ph, caller σ1 = Some (i, Closing ph) → after_acquire ph = false).
    { intros ph Hc1. destruct (after_acquire ph) eqn:Hph; [|done]. exfalso.
      apply step_trans in Hstep. destruct Hstep; simpl in Hc1.
      all: try (match goal with
                | Hb : BetterJSONStorage _ _ _ _ = _ |- _ =>
                    apply construct_cases in Hb as (Hc & _)
                end).
      all: try congruence.
      all: try (match goal with
                | H : caller _ = Some (_, Closing ?q) |- _ =>
                    injection Hc1 as <- <-;
                    first [ by discriminate (Hcal q H)
                          | assert (s0 = s) as -> by congruence; congruence ]
                end).
      all: try (injection Hc1 as <- <-; discriminate).
      all: try (specialize (Hcal ph Hc1); congruence).
    }
    destruct (IH σ1 evs' s1 ltac:(by eapply reachable_step) Hi1 Ho1 Hcal1 Hrun)
      as (s' & Hi' & Ho' & Hh' & Hc').
    exists s'. split_and!; try done. congruence.
Qed.


(** ** Entries of [_paths] without owner *)

Lemma leaked_step l σ σ' ev (h : Z) :
  invariant hash σ → trans hash l σ ev σ' → leaked h σ → leaked h σ'.
Proof.
  intros [Hall _] Htrans [Hin Hnone].
  assert (Hopen : ∀ i s, heap σ !! i = Some s → is_open s = true → _hash s ≠ h)
    by (intros i s Hi Ho; apply (Hnone i s Hi); by left).
  destruct Htrans.
  all: try (match goal with
            | Hb : BetterJSONStorage _ _ _ _ = _ |- _ =>
                apply construct_cases in Hb as (Hc & _ & Hsub & Hcase)
            end).
  1:{ destruct Hcase as [(e & [=] & _)|(_ & Hfresh & _ & _ & Hheap & _ & Hps)].
      split; [set_solver|]. intros i s Hi Hreg. rewrite Hheap in Hi.
      apply lookup_snoc_Some in Hi as [[_ Hi]|[-> <-]].
      - apply (Hnone i s Hi). destruct Hreg as [?|Hr]; [by left|]. congruence.
      - simpl. intros <-. done. }
  1:{ destruct Hcase as [(e' & _ & Hheap)|(? & _)]; [|discriminate].
      split; [set_solver|]. intros i s Hi Hreg. rewrite Hheap in Hi.
      apply (Hnone i s Hi). destruct Hreg as [?|Hr]; [by left|]. congruence. }
  all: split; [try done|].
  all: try (intros i' s'; simpl; intros Hi' Hreg;
            try (apply list_lookup_insert_Some in Hi' as [(<- & <- & _)|[Hne Hi']]);
            match goal with
            | Hact : heap _ !! ?j = Some ?sj |- _hash ?x ≠ _ =>
                first
                  [ apply (Hnone _ _ Hi');
                    destruct Hreg as [?|Hr]; [by left|right; simpl in Hr; congruence]
                  | apply (Hnone _ _ Hact);
                    destruct Hreg as [Ho|Hr];
                    [ left; revert Ho; unfold is_open; simpl;
                      repeat match goal with
                             | H : _handle _ = Some _ |- _ => rewrite H
                             | H : h_closed _ = _ |- _ => rewrite H
                             | H : spill _ _ _ = Some _ |- _ =>
                                 unfold spill in H;
                                 destruct (disk _ !! _) as [[|?]|]; try discriminate;
                                 injection H as <- <-
                             end; simpl; congruence
                    | simpl in Hr; first [congruence | by right] ] ]
            end).
  - (* self._handle.close() on a closed handle: excluded by the invariant *)
    exfalso.
    match goal with
    | Hc : caller _ = Some (?j, Closing CloseHandle), Hi : heap _ !! ?j = Some ?sj,
      Hh : _handle ?sj = Some ?hj, Hcl : h_closed ?hj = true |- _ =>
        pose proof (inv_close_handle _ _ _ _ (Hall j sj Hi) Hc) as Ho;
        unfold is_open in Ho; rewrite Hh, Hcl in Ho; discriminate
    end.
  - (* self._handle.close() *)
    intros i' s'; simpl; intros Hi' Hreg.
    apply list_lookup_insert_Some in Hi' as [(<- & <- & _)|[Hne Hi']].
    + simpl.
      match goal with
      | Hi : heap _ !! i = Some ?sj, Hh : _handle ?sj = Some ?hj,
        Hcl : h_closed ?hj = false |- _ =>
          apply (Hopen i sj Hi); unfold is_open; by rewrite Hh, Hcl
      end.
    + apply (Hnone _ _ Hi'). destruct Hreg as [?|Hr]; [by left|].
      simpl in Hr. congruence.
  - (* self.__class__._paths.discard(self._hash) *)
    simpl. apply elem_of_difference. split; [done|].
    intros Heq%elem_of_singleton.
    match goal with
    | Hc : caller _ = Some (?j, Closing CloseDiscard), Hi : heap _ !! ?j = Some ?sj |- _ =>
        apply (Hnone j sj Hi); [by right|done]
    end.
Qed.

Lemma leaked_run ls σ σ' evs (h : Z) :
  reachable hash σ → run hash ls σ = Some (σ', evs) → leaked h σ → leaked h σ'.
Proof.
  revert σ evs. induction ls as [|l ls IH]; intros σ evs Hr Hrun Hl.
  - by injection Hrun as <- <-.
  - apply run_cons_inv in Hrun as (σ1 & ev & evs' & Hstep & Hrun & ->).
    eapply (IH σ1); [by eapply reachable_step|done|].
    eapply leaked_step; [by apply invariant_reachable|by apply step_trans|done].
Qed.

(** X9. A constructor call that raises anything but the
    already-exists error of [__new__] has added the hash of its path to
    [_paths], and nothing ever removes it: for the rest of the process
    every constructor call on that path, whatever the access mode, is
    refused as already existing. *)
Theorem failed_construction_locks_path σ σ1 p (access_mode : string) (e : exn) :
  reachable hash σ →
  step hash (Call (COpen p access_mode)) σ = Some (σ1, Raised e) →
  e ≠ AttributeError_exists →
  ∀ ls σ' evs,
    run hash ls σ1 = Some (σ', evs) →
    hash p ∈ _paths σ' ∧
    ∀ mode,
      caller σ' = None →
      step hash (Call (COpen p mode)) σ' = Some (σ', Raised AttributeError_exists).
Proof.
  intros Hr Hstep He ls σ' evs Hrun.
  pose proof (invariant_reachable _ _ Hr) as [Hall _].
  assert (Hl : leaked (hash p) σ1).
  { simpl in Hstep. destruct (caller σ) eqn:Hcal; [discriminate|].
    destruct (BetterJSONStorage hash p access_mode σ) as [σ2 r] eqn:Hb.
    pose proof Hb as Hb'. apply construct_cases in Hb' as (Hc & _ & _ & Hcase).
    destruct Hcase as [(e' & -> & Hheap)|(-> & _)]; [|discriminate].
    injection Hstep as <- <-.
    revert Hb. unfold BetterJSONStorage, __new__. case_bool_decide as Hin.
    { intros [= <- <-]. done. }
    rewrite init_unfold. unfold init_result. simpl.
    intros Hb.
    assert (Hps : _paths σ2 = _paths σ ∪ {[ hash p ]}).
    { destruct (mode_ok access_mode); simpl in Hb; [|by injection Hb as <- _].
      destruct (stat (disk σ) p) as [[|?]|]; try (by injection Hb as <- _).
      case_bool_decide; [by injection Hb as <- _|].
      destruct (mkdir_parents _ _) as [fs [|]]; by injection Hb as <- _. }
    split; [rewrite Hps; set_solver|].
    intros i s Hi Hreg Heq. rewrite Hheap in Hi. apply Hin. rewrite <- Heq.
    apply (inv_registered _ _ _ _ (Hall i s Hi)).
    destruct Hreg as [?|Hc']; [by left|right; congruence]. }
  assert (Hr1 : reachable hash σ1) by (by eapply reachable_step).
  destruct (leaked_run _ _ _ _ _ Hr1 Hrun Hl) as [Hin _].
  split; [done|]. intros am' Hcal. simpl. rewrite Hcal.
  unfold BetterJSONStorage, __new__. by rewrite bool_decide_eq_true_2.
Qed.


(** ** Histories *)

Lemma history_run ls0 evs0 ls σ0 σ evs :
  history hash σ0 ls0 evs0 → run hash ls σ0 = Some (σ, evs) →
  history hash σ (ls0 ++ ls) (evs0 ++ evs).
Proof.
  revert σ0 ls0 evs0 evs. induction ls as [|l ls IH]; intros σ0 ls0 evs0 evs Hh Hrun.
  - injection Hrun as <- <-. by rewrite !app_nil_r.
  - apply run_cons_inv in Hrun as (σ1 & ev & evs' & Hstep & Hrun & ->).
    rewrite (cons_middle l), (cons_middle ev), !app_assoc.
    eapply IH; [|done]. by eapply history_step.
Qed.

Lemma history_of_run (ls : list (@label Doc)) (fs : filesystem) σ evs :
  run hash ls (boot fs) = Some (σ, evs) → history hash σ ls evs.
Proof. intros Hrun. by apply (history_run [] [] ls (boot fs)); [constructor|]. Qed.

Lemma history_reachable σ ls evs : history hash σ ls evs → reachable hash σ.
Proof.
  induction 1; [apply reachable_boot|by eapply reachable_step].
Qed.

Lemma flushes_snoc (i : nat) (evs : list (@event)) (ev : event) :
  flushes i (evs ++ [ev]) = flushes i evs ++ flushes i [ev].
Proof. unfold flushes. by rewrite omap_app. Qed.

Lemma writes_snoc (i : nat) (ls : list (@label Doc)) (l : label) :
  writes i (ls ++ [l]) = writes i ls + (if is_write i l then 1 else 0).
Proof.
  unfold writes. rewrite filter_app, length_app. f_equal.
  rewrite filter_cons. destruct (is_write i l); by case_decide.
Qed.

(** Events name instances of the heap. *)
Lemma history_flushes_fresh σ ls evs (i : nat) :
  history hash σ ls evs → (length (heap σ) ≤ i)%nat → flushes i evs = [].
Proof.
  induction 1 as [fs|σ ls evs l σ' ev Hh IH Hstep]; intros Hlen; [done|].
  assert (Hmono : (length (heap σ) ≤ length (heap σ'))%nat).
  { destruct (decide (length (heap σ) ≤ length (heap σ'))%nat) as [|Hn]; [done|].
    assert (Hlt : length (heap σ') < length (heap σ)) by lia.
    apply lookup_lt_is_Some in Hlt as [s0 Hs0].
    destruct (step_lookup _ _ _ _ _ _ _ Hstep Hs0) as (s1 & Hs1 & _).
    apply lookup_lt_Some in Hs1. lia. }
  rewrite flushes_snoc, IH by lia. simpl.
  destruct ev as [| | |j b|]; try done. simpl. case_bool_decide; [|done]. subst j.
  apply flushed_inv in Hstep as (s & Hs & _). apply lookup_lt_Some in Hs. lia.
Qed.


Ltac debt_solve :=
  unfold flush_debt; rewrite ?flushes_snoc, ?length_app; simpl;
  rewrite_facts; simpl;
  repeat match goal with
         | |- context [bool_decide ?P] => destruct (decide P); 
             [rewrite (bool_decide_eq_true_2 P) by done
             |rewrite (bool_decide_eq_false_2 P) by done]; simpl
         end;
  repeat case_match; simplify_eq/=; try lia;
  try (match goal with Hc : ?a = ?a → _ |- _ => specialize (Hc eq_refl); discriminate end).

Lemma debt_step l σ σ' ev (evs : list event) (k : nat) sk sk' :
  invariant2 σ → trans hash l σ ev σ' →
  heap σ !! k = Some sk → heap σ' !! k = Some sk' →
  (flush_debt σ' (evs ++ [ev]) k sk'
   ≤ flush_debt σ evs k sk + (if is_write k l then 1 else 0))%nat.
Proof.
  intros Hinv2 Htrans Hk Hk'.
  pose proof (inv_clear _ _ _ (Hinv2 k sk Hk)) as Hclr.
  destruct Htrans.
  all: try (match goal with
            | Hb : BetterJSONStorage _ _ _ _ = _ |- _ =>
                apply construct_cases in Hb as (Hc & _ & _ & Hcase)
            end).
  1:{ destruct Hcase as [(e & [=] & _)|(_ & _ & _ & _ & Hheap & _)].
      rewrite Hheap, lookup_app_l in Hk' by (by eapply lookup_lt_Some).
      assert (sk' = sk) as -> by congruence.
      unfold flush_debt. rewrite flushes_snoc, Hc, H. simpl. rewrite app_nil_r. lia. }
  1:{ destruct Hcase as [(e' & _ & Hheap)|(? & _)]; [|discriminate].
      rewrite Hheap in Hk'. assert (sk' = sk) as -> by congruence.
      unfold flush_debt. rewrite flushes_snoc, Hc, H. simpl. rewrite app_nil_r. lia. }
  all: simpl in Hk'.
  all: try (apply list_lookup_insert_Some in Hk' as [(Heq & <- & _)|[Hne Hk']]).
  all: simplify_eq.
  all: debt_solve.
Qed.

(** An instance that a step adds to the heap was just constructed. *)
Lemma trans_new l σ σ' ev (i : nat) s :
  trans hash l σ ev σ' → heap σ !! i = None → heap σ' !! i = Some s →
  ∃ p am, l = Call (COpen p am) ∧ ev = Returned ∧ s = constructed hash p am ∧
          i = length (heap σ) ∧ caller σ' = None ∧ caller σ = None ∧
          (hash p ∉ _paths σ) ∧ _paths σ' = _paths σ ∪ {[ hash p ]} ∧
          disk σ' !! p = Some (File []) ∧
          heap σ' = heap σ ++ [constructed hash p am].
Proof.
  intros Htrans Hnone Hsome.
  destruct Htrans.
  all: try (match goal with
            | Hb : BetterJSONStorage _ _ _ _ = _ |- _ =>
                apply construct_cases in Hb as (Hc & _ & _ & Hcase)
            end).
  1:{ destruct Hcase as [(e & [=] & _)|(_ & Hfresh & _ & _ & Hheap & Hd & Hps)].
      rewrite Hheap in Hsome.
      apply lookup_ge_None in Hnone.
      destruct (decide (i = length (heap σ))) as [->|Hne].
      - rewrite lookup_app_r, Nat.sub_diag in Hsome by done.
        injection Hsome as <-. exists p, access_mode.
        split_and!; try done. congruence.
      - apply lookup_lt_Some in Hsome. rewrite length_app in Hsome. simpl in Hsome. lia. }
  1:{ destruct Hcase as [(e' & _ & Hheap)|(? & _)]; [|discriminate]. congruence. }
  all: exfalso; simpl in Hsome; try congruence.
  all: apply lookup_lt_Some in Hsome; rewrite ?length_insert in Hsome;
    apply lookup_ge_None in Hnone; lia.
Qed.

(** The flushes done and owed never exceed the calls of [write]. *)
Lemma history_debt σ ls evs :
  history hash σ ls evs →
  ∀ (i : nat) s, heap σ !! i = Some s → (flush_debt σ evs i s ≤ writes i ls)%nat.
Proof.
  induction 1 as [fs|σ ls evs l σ' ev Hh IH Hstep]; intros i s Hi; [done|].
  pose proof (invariant2_reachable _ (history_reachable _ _ _ Hh)) as Hinv2.
  apply step_trans in Hstep. rewrite writes_snoc.
  destruct (heap σ !! i) as [s0|] eqn:Hi0.
  - pose proof (debt_step _ _ _ _ evs _ _ _ Hinv2 Hstep Hi0 Hi) as Hd.
    specialize (IH _ _ Hi0). lia.
  - destruct (trans_new _ _ _ _ _ _ Hstep Hi0 Hi)
      as (p & am & -> & -> & -> & -> & Hc & _).
    unfold flush_debt. rewrite flushes_snoc, Hc.
    rewrite (history_flushes_fresh _ _ _ _ Hh) by done. simpl. lia.
Qed.

(** X10. A writer thread flushes at most once for each call of [write]
    on its instance: in every run from start-up the number of payloads
    written for instance [i] is at most the number of [write] calls made
    on [i].  (Calls that follow each other before the writer looks are
    served by one flush.) *)
Theorem flushes_bounded_by_writes (ls : list (@label Doc)) (fs : filesystem)
    σ evs (i : nat) :
  run hash ls (boot fs) = Some (σ, evs) →
  (length (flushes i evs) ≤ writes i ls)%nat.
Proof.
  intros Hrun. apply history_of_run in Hrun.
  destruct (heap σ !! i) as [s|] eqn:Hi.
  - pose proof (history_debt _ _ _ Hrun _ _ Hi) as Hd. unfold flush_debt in Hd. lia.
  - rewrite (history_flushes_fresh _ _ _ _ Hrun); [simpl; lia|].
    by apply lookup_ge_None.
Qed.

(** ** The file of an instance *)

Lemma write_at_end (c b : bytes) : write_at c (length c) b = c ++ b.
Proof.
  unfold write_at. rewrite firstn_all, Nat.sub_diag. simpl.
  rewrite drop_ge by lia. by rewrite app_nil_r.
Qed.

(** What [spill] does to a file whose descriptor stands at its end. *)
Lemma spill_at_end (n : nat) (h h' : handle) (fs fs' : filesystem) (c : bytes) :
  spill n h fs = Some (fs', h') → fs !! h_path h = Some (File c) →
  h_pos h = length c →
  h_path h' = h_path h ∧ h_closed h' = h_closed h ∧ h_buf h' = drop n (h_buf h) ∧
  fs' !! h_path h = Some (File (c ++ take n (h_buf h))) ∧
  h_pos h' = length (c ++ take n (h_buf h)) ∧
  (∀ q, q ≠ h_path h → fs' !! q = fs !! q).
Proof.
  unfold spill. intros Hs Hc Hpos. rewrite Hc in Hs. injection Hs as <- <-. simpl.
  rewrite Hpos, write_at_end, lookup_insert_eq, length_app.
  split_and!; try done. intros q Hq. by rewrite lookup_insert_ne.
Qed.

Lemma spill_elsewhere (n : nat) (h h' : handle) (fs fs' : filesystem) (q : path) :
  spill n h fs = Some (fs', h') → q ≠ h_path h → fs' !! q = fs !! q.
Proof.
  unfold spill. destruct (fs !! h_path h) as [[|c]|]; try discriminate.
  intros [= <- <-] Hq. by rewrite lookup_insert_ne.
Qed.

(** Two instances that own an entry of [_paths] have different paths. *)
Lemma registered_paths σ (i k : nat) si sk (hi hk : handle) :
  invariant hash σ → heap σ !! i = Some si → heap σ !! k = Some sk →
  registered σ i si → registered σ k sk →
  _handle si = Some hi → _handle sk = Some hk → i ≠ k →
  h_path hi ≠ h_path hk.
Proof.
  intros [Hall Hdist] Hi Hk Hri Hrk Hhi Hhk Hne Heq.
  destruct (inv_slots _ _ _ _ (Hall _ _ Hi)) as (p1 & m1 & h1 & _ & _ & Hh1 & Hp1 & Hash1 & _).
  destruct (inv_slots _ _ _ _ (Hall _ _ Hk)) as (p2 & m2 & h2 & _ & _ & Hh2 & Hp2 & Hash2 & _).
  apply Hne. eapply Hdist; eauto. congruence.
Qed.

(** A path that [__new__] accepts is the path of no registered instance. *)
Lemma fresh_path σ (k : nat) sk (hk : handle) p :
  invariant hash σ → heap σ !! k = Some sk → registered σ k sk →
  _handle sk = Some hk → (hash p ∉ _paths σ) → h_path hk ≠ p.
Proof.
  intros [Hall _] Hk Hrk Hhk Hfresh Heq. apply Hfresh.
  destruct (inv_slots _ _ _ _ (Hall _ _ Hk)) as (p2 & m2 & h2 & _ & _ & Hh2 & Hp2 & Hash2 & _).
  pose proof (inv_registered _ _ _ _ (Hall _ _ Hk) Hrk). congruence.
Qed.

Lemma file_step l σ σ' ev (evs : list event) (k : nat) sk sk' :
  invariant hash σ → trans hash l σ ev σ' →
  heap σ !! k = Some sk → heap σ' !! k = Some sk' →
  registered σ' k sk' →
  (registered σ k sk → file_ok σ evs k sk) →
  file_ok σ' (evs ++ [ev]) k sk'.
Proof.
  intros Hinv Htrans Hk Hk' Hreg IH.
  pose proof (inv_close_handle _ _ _ _ (proj1 Hinv _ _ Hk)) as Hich.
  destruct Htrans.
  all: try (match goal with
            | Hb : BetterJSONStorage _ _ _ _ = _ |- _ =>
                pose proof (construct_files _ _ _ _ _ Hb) as Hfiles;
                apply construct_cases in Hb as (Hc & _ & _ & Hcase)
            end).
  1:{ destruct Hcase as [(e & [=] & _)|(_ & Hfresh & _ & _ & Hheap & _)].
      rewrite Hheap, lookup_app_l in Hk' by (by eapply lookup_lt_Some).
      assert (sk' = sk) as -> by congruence.
      unfold registered in *. rewrite Hc in Hreg.
      destruct (IH Hreg) as (h & c & Hh & Hd & Hpos & Hcat & Hcl).
      exists h, c. rewrite flushes_snoc. simpl. rewrite app_nil_r.
      split_and!; try done. apply Hfiles; [done|left].
      by eapply fresh_path. }
  1:{ destruct Hcase as [(e' & _ & Hheap)|(? & _)]; [|discriminate].
      rewrite Hheap in Hk'. assert (sk' = sk) as -> by congruence.
      unfold registered in *. rewrite Hc in Hreg.
      destruct (IH Hreg) as (h & c & Hh & Hd & Hpos & Hcat & Hcl).
      exists h, c. rewrite flushes_snoc. simpl. rewrite app_nil_r.
      split_and!; try done. apply Hfiles; eauto. }
  all: simpl in Hk'.
  all: try (apply list_lookup_insert_Some in Hk' as [(Heq & <- & _)|[Hne Hk']]).
  all: simplify_eq.
  all: try (unfold file_ok, registered, is_open in *; rewrite flushes_snoc;
            cbn in *; rewrite ?bool_decide_eq_false_2 by done; rewrite ?app_nil_r;
            apply IH; naive_solver).
  all: try (match goal with
            | Hs : spill _ ?h _ = Some _, Hh : _handle ?s = Some ?h,
              Hc : h_closed ?h = false, Hi : heap _ !! ?i = Some ?s,
              Hne : ?i ≠ _ |- _ =>
                (* the file of another instance is written *)
                assert (Hact : registered σ i s)
                  by (left; unfold is_open; by rewrite Hh, Hc);
                assert (Hr : registered σ k sk)
                  by (unfold registered, is_open in *; cbn in *; naive_solver);
                destruct (IH Hr) as (hk & c & Hhk & Hd & Hpos & Hcat & Hcl);
                pose proof (registered_paths _ _ _ _ _ _ _ Hinv Hi Hk Hact Hr Hh Hhk Hne) as Hp;
                exists hk, c; rewrite flushes_snoc; simpl; rewrite app_nil_r;
                split_and!; try done;
                by rewrite (spill_elsewhere _ _ _ _ _ _ Hs)
            | Hs : spill _ ?h _ = Some _, Hh : _handle ?s = Some ?h,
              Hc : h_closed ?h = false |- _ =>
                (* the file of the instance itself is written *)
                assert (Hr : registered σ k s)
                  by (left; unfold is_open; by rewrite Hh, Hc);
                destruct (IH Hr) as (h0 & c & Hh0 & Hd & Hpos & Hcat & Hcl);
                assert (h0 = h) as -> by congruence;
                destruct (spill_at_end _ _ _ _ _ _ Hs Hd Hpos)
                  as (Hp' & Hc' & Hb' & Hd' & Hpos' & _);
                eexists _, _; rewrite flushes_snoc; simpl; rewrite app_nil_r;
                split_and!; [done|simpl; rewrite ?Hp'; exact Hd'|done| |];
                simpl; rewrite Hb', ?drop_all, <- ?app_assoc, ?take_drop,
                         ?firstn_all, ?app_nil_r; try done; congruence
            end).
  - match goal with
    | Hc : caller _ = Some (_, Closing CloseHandle), Hh : _handle _ = Some _,
      Hcl : h_closed _ = true |- _ =>
        specialize (Hich Hc); unfold is_open in Hich; rewrite Hh, Hcl in Hich;
        discriminate
    end.
  - assert (Hr : registered σ k s).
    { left. unfold is_open.
      match goal with
      | Hh : _handle _ = Some _, Hc : h_closed _ = false |- _ => by rewrite Hh, Hc
      end. }
    destruct (IH Hr) as (h0 & c & Hh0 & Hd & Hpos & Hcat & Hcl).
    assert (h0 = h) as -> by congruence.
    exists (handle_write b h), c. rewrite flushes_snoc. simpl.
    rewrite bool_decide_eq_true_2 by done. simpl.
    rewrite concat_app. simpl. rewrite app_nil_r, app_assoc, Hcat.
    split_and!; try done. congruence.
Qed.

(** The file of an instance that owns its entry of [_paths] holds the
    payloads of its writer, in order, up to what its handle still
    buffers. *)
Lemma history_file σ ls evs :
  history hash σ ls evs →
  ∀ (i : nat) s, heap σ !! i = Some s → registered σ i s → file_ok σ evs i s.
Proof.
  induction 1 as [fs|σ ls evs l σ' ev Hh IH Hstep]; intros i s Hi Hreg; [done|].
  pose proof (invariant_reachable hash _ (history_reachable _ _ _ Hh)) as Hinv.
  apply step_trans in Hstep.
  destruct (heap σ !! i) as [s0|] eqn:Hi0.
  - eapply file_step; eauto.
  - destruct (trans_new _ _ _ _ _ _ Hstep Hi0 Hi)
      as (p & am & -> & -> & -> & -> & _ & _ & _ & _ & Hd & _).
    exists (Handle p false [] 0), []. rewrite flushes_snoc.
    rewrite (history_flushes_fresh _ _ _ _ Hh) by done. done.
Qed.

(** ** The document and the last payload *)

Lemma sync_step l σ σ' ev (evs : list event) (k : nat) sk sk' :
  trans hash l σ ev σ' → is_load k l = false →
  heap σ !! k = Some sk → heap σ' !! k = Some sk' →
  (settled σ k sk → in_sync evs k sk) →
  settled σ' k sk' → in_sync (evs ++ [ev]) k sk'.
Proof.
  intros Htrans Hload Hk Hk' IH Hset.
  destruct Htrans.
  all: try (match goal with
            | Hb : BetterJSONStorage _ _ _ _ = _ |- _ =>
                apply construct_cases in Hb as (Hc & _ & _ & Hcase)
            end).
  1:{ destruct Hcase as [(e & [=] & _)|(_ & Hfresh & _ & _ & Hheap & _)].
      rewrite Hheap, lookup_app_l in Hk' by (by eapply lookup_lt_Some).
      assert (sk' = sk) as -> by congruence.
      unfold settled, in_sync in *. rewrite Hc in Hset.
      rewrite flushes_snoc. simpl. rewrite app_nil_r. auto. }
  1:{ destruct Hcase as [(e' & _ & Hheap)|(? & _)]; [|discriminate].
      rewrite Hheap in Hk'. assert (sk' = sk) as -> by congruence.
      unfold settled, in_sync in *. rewrite Hc in Hset.
      rewrite flushes_snoc. simpl. rewrite app_nil_r. auto. }
  all: simpl in Hk'.
  all: try (apply list_lookup_insert_Some in Hk' as [(Heq & <- & _)|[Hne Hk']]).
  all: simplify_eq.
  all: try (unfold settled, in_sync in *; rewrite flushes_snoc;
            cbn in *; rewrite ?bool_decide_eq_false_2 by done; rewrite ?app_nil_r;
            try case_bool_decide; try done;
            apply IH; naive_solver).
  - destruct Hset as (_ & Hcal & _). by destruct Hcal.
  - right. rewrite flushes_snoc. simpl. rewrite bool_decide_eq_true_2 by done.
    simpl. rewrite last_snoc. eauto.
Qed.

(** While [load] is not called on an instance, the last payload its
    writer flushed is its document whenever no write is under way. *)
Lemma history_sync σ ls evs (i : nat) :
  history hash σ ls evs → Forall (λ l, is_load i l = false) ls →
  ∀ s, heap σ !! i = Some s → settled σ i s → in_sync evs i s.
Proof.
  induction 1 as [fs|σ ls evs l σ' ev Hh IH Hstep]; intros Hno s Hi Hset; [done|].
  apply Forall_app in Hno as [Hno Hl]. rewrite Forall_singleton in Hl.
  apply step_trans in Hstep.
  destruct (heap σ !! i) as [s0|] eqn:Hi0.
  - eapply (sync_step _ _ _ _ evs _ s0 s Hstep Hl Hi0 Hi); [|done].
    intros Hs0. by apply IH.
  - destruct (trans_new _ _ _ _ _ _ Hstep Hi0 Hi)
      as (p & am & -> & -> & -> & -> & _).
    left. rewrite flushes_snoc.
    rewrite (history_flushes_fresh _ _ _ _ Hh) by done. done.
Qed.

(** At the last statement of [close] nothing of a write is under way. *)
Lemma closing_settled σ (i : nat) s :
  reachable hash σ → heap σ !! i = Some s →
  caller σ = Some (i, Closing CloseDiscard) → settled σ i s.
Proof.
  intros Hr Hi Hc.
  pose proof (proj1 (invariant_reachable hash _ Hr) _ _ Hi) as Hinv.
  pose proof (invariant2_reachable _ Hr _ _ Hi) as Hinv2.
  destruct (inv_closing _ _ _ _ Hinv _ Hc eq_refl) as [_ Hlock].
  pose proof (inv_closing_changed _ _ _ Hinv2 _ Hc) as Hch.
  split_and!.
  - by apply Hch.
  - rewrite Hc. discriminate.
  - intros Hw. rewrite Hw in Hlock. discriminate.
  - intros e Hw. rewrite Hw in Hlock. discriminate.
Qed.

(** X11. While the handle of an instance is open, the file at its path
    followed by the bytes its handle still buffers is the concatenation,
    in the order of writing, of every payload its writer thread has
    written since the instance was constructed: a flush never replaces
    what an earlier flush wrote, it is appended to it. *)
Theorem file_holds_flushed_payloads (ls : list (@label Doc)) (fs : filesystem)
    σ evs (i : nat) s (h : handle) :
  run hash ls (boot fs) = Some (σ, evs) →
  heap σ !! i = Some s → _handle s = Some h → h_closed h = false →
  _path s = Some (h_path h) ∧
  ∃ c, disk σ !! h_path h = Some (File c) ∧
       c ++ h_buf h = concat (flushes i evs).
Proof.
  intros Hrun Hi Hh Hc. apply history_of_run in Hrun.
  pose proof (invariant_reachable hash _ (history_reachable _ _ _ Hrun)) as [Hall _].
  destruct (inv_slots _ _ _ _ (Hall _ _ Hi)) as (p & m & h1 & Hp & _ & Hh1 & Hp1 & _).
  assert (h1 = h) as -> by congruence.
  split; [congruence|].
  assert (Hreg : registered σ i s) by (left; unfold is_open; by rewrite Hh, Hc).
  destruct (history_file _ _ _ Hrun _ _ Hi Hreg) as (h0 & c & Hh0 & Hd & _ & Hcat & _).
  assert (h0 = h) as -> by congruence. eauto.
Qed.

(** X12. As long as [load] has not been called on an instance, its
    writer thread is never behind by more than the write under way:
    whenever [_changed] is clear, the caller is not between the two
    assignments of [write], and the writer is neither about to write nor
    dead, the payload written last is [compress(dumps(_data))] of the
    document in memory; or nothing was ever written and the document is
    still [None]. *)
Theorem last_payload_is_document (ls : list (@label Doc)) (fs : filesystem)
    σ evs (i : nat) s :
  run hash ls (boot fs) = Some (σ, evs) →
  Forall (λ l, is_load i l = false) ls →
  heap σ !! i = Some s → settled σ i s →
  (flushes i evs = [] ∧ _data s = Some None) ∨
  (∃ v b, _data s = Some v ∧ encode v = Some b ∧ last (flushes i evs) = Some b).
Proof.
  intros Hrun Hno Hi Hset. apply history_of_run in Hrun.
  exact (history_sync _ _ _ _ Hrun Hno _ Hi Hset).
Qed.

(** X13. When [close] stands before its last statement,
    [_paths.discard(self._hash)], that statement returns: the hash of the
    instance leaves the registry, the handle is closed with nothing left
    in its buffer, and the file at the path of the instance is exactly
    the concatenation of the payloads the writer wrote. *)
Theorem close_leaves_payloads (ls : list (@label Doc)) (fs : filesystem)
    σ evs (i : nat) s :
  run hash ls (boot fs) = Some (σ, evs) →
  caller σ = Some (i, Closing CloseDiscard) → heap σ !! i = Some s →
  ∃ σ' p h,
    step hash Main σ = Some (σ', Returned) ∧
    caller σ' = None ∧ heap σ' !! i = Some s ∧ (_hash s ∉ _paths σ') ∧
    _path s = Some p ∧ _handle s = Some h ∧ h_path h = p ∧
    h_closed h = true ∧ h_buf h = [] ∧
    disk σ' !! p = Some (File (concat (flushes i evs))).
Proof.
  intros Hrun Hc Hi. apply history_of_run in Hrun.
  pose proof (invariant_reachable hash _ (history_reachable _ _ _ Hrun)) as [Hall _].
  destruct (inv_slots _ _ _ _ (Hall _ _ Hi)) as (p & m & h & Hp & _ & Hh & Hhp & _).
  pose proof (inv_close_discard _ _ _ _ (Hall _ _ Hi) Hc) as Hopen.
  unfold is_open in Hopen. rewrite Hh in Hopen. apply negb_false_iff in Hopen.
  assert (Hreg : registered σ i s) by (by right).
  destruct (history_file _ _ _ Hrun _ _ Hi Hreg) as (h0 & c & Hh0 & Hd & _ & Hcat & Hcl).
  assert (h0 = h) as -> by congruence.
  rewrite (Hcl Hopen), app_nil_r in Hcat. subst c.
  eexists _, p, h. simpl. rewrite Hc. simpl. rewrite Hi. simpl.
  split_and!; try done.
  - apply list_lookup_insert_eq. by eapply lookup_lt_Some.
  - set_solver.
  - by apply Hcl.
  - simpl. congruence.
Qed.

(** X14. One [write], then [close], then [load] gives the document back.
    If [write] was called at most once on an instance and [load] never,
    and the document [v] in memory is encoded by a payload that is not
    empty and that decodes to [v], then when [close] stands before its
    last statement the file is such that [load] assigns [v] again. *)
Theorem single_write_round_trip (ls : list (@label Doc)) (fs : filesystem)
    σ evs (i : nat) s (v : option Doc) (b : bytes) :
  run hash ls (boot fs) = Some (σ, evs) →
  caller σ = Some (i, Closing CloseDiscard) → heap σ !! i = Some s →
  (writes i ls ≤ 1)%nat → Forall (λ l, is_load i l = false) ls →
  _data s = Some v → encode v = Some b → b ≠ [] → decode b = Some v →
  load (disk σ) s = Ret (set_data v s).
Proof.
  intros Hrun Hc Hi Hw Hno Hv Hb Hne Hdec. apply history_of_run in Hrun.
  pose proof (history_reachable _ _ _ Hrun) as Hr.
  pose proof (invariant_reachable hash _ Hr) as [Hall _].
  destruct (inv_slots _ _ _ _ (Hall _ _ Hi)) as (p & m & h & Hp & _ & Hh & Hhp & _).
  destruct (inv_file _ _ _ _ (Hall _ _ Hi) _ Hp) as [Hpne _].
  pose proof (inv_close_discard _ _ _ _ (Hall _ _ Hi) Hc) as Hopen.
  unfold is_open in Hopen. rewrite Hh in Hopen. apply negb_false_iff in Hopen.
  assert (Hreg : registered σ i s) by (by right).
  destruct (history_file _ _ _ Hrun _ _ Hi Hreg) as (h0 & c & Hh0 & Hd & _ & Hcat & Hcl).
  assert (h0 = h) as -> by congruence.
  rewrite (Hcl Hopen), app_nil_r in Hcat. subst c.
  pose proof (history_debt _ _ _ Hrun _ _ Hi) as Hdebt.
  assert (Hlen : (length (flushes i evs) ≤ 1)%nat) by (unfold flush_debt in Hdebt; lia).
  pose proof (history_sync _ _ _ _ Hrun Hno _ Hi (closing_settled _ _ _ Hr Hi Hc)) as Hsync.
  unfold load. rewrite Hp. simpl.
  assert (Hst : stat (disk σ) p = disk σ !! p) by (destruct p; [done|done]).
  rewrite Hst, <- Hhp, Hd.
  destruct Hsync as [[Hnil Hnone]|(v' & b' & Hv' & Hb' & Hlast)].
  - rewrite Hnil. simpl. congruence.
  - assert (v' = v) as -> by congruence. assert (b' = b) as -> by congruence.
    destruct (flushes i evs) as [|b0 [|b1 rest]]; simpl in *; [done| |lia].
    injection Hlast as ->. rewrite app_nil_r.
    destruct b; [done|]. by rewrite Hdec.
Qed.

(** ** [close] to its end *)

Lemma run_cons_step l (ls : list (@label Doc)) σ σ1 ev σ' evs :
  step hash l σ = Some (σ1, ev) → run hash ls σ1 = Some (σ', evs) →
  run hash (l :: ls) σ = Some (σ', ev :: evs).
Proof. simpl. intros ->. simpl. by intros ->. Qed.

Lemma step_main σ (i : nat) pc s :
  caller σ = Some (i, pc) → heap σ !! i = Some s →
  step hash Main σ = main_step i pc s σ.
Proof. simpl. intros ->. simpl. by intros ->. Qed.

Lemma step_writer σ (i : nat) s s' ev :
  heap σ !! i = Some s → writer_step i s = Some (s', ev) →
  step hash (Writer i) σ = Some (store i s' σ, ev).
Proof. simpl. intros ->. simpl. by intros ->. Qed.

Lemma heap_store σ (i : nat) s s' :
  heap σ !! i = Some s → heap (store i s' σ) !! i = Some s'.
Proof. intros Hi. simpl. apply list_lookup_insert_eq. by eapply lookup_lt_Some. Qed.

(** [close] past its wait, with the writer at the head of its loop. *)
Lemma close_from_spin σ (i : nat) s (h : handle) (c : bytes) :
  caller σ = Some (i, Closing CloseSpin) → heap σ !! i = Some s →
  writer s = Some WLoop → _changed s = false → _shutdown_lock s = true →
  _handle s = Some h → h_closed h = false →
  disk σ !! h_path h = Some (File c) → h_pos h = length c →
  ∃ σ' s',
    run hash [Main; Main; Writer i; Writer i; Main; Main; Main; Main] σ
      = Some (σ', [Tau; Tau; Tau; Tau; Tau; Tau; Tau; Returned]) ∧
    caller σ' = None ∧ heap σ' !! i = Some s' ∧
    _paths σ' = _paths σ ∖ {[ _hash s ]} ∧
    disk σ' !! h_path h = Some (File (c ++ h_buf h)) ∧
    is_open s' = false ∧ _running s' = false ∧ writer s' = Some WExited ∧
    _data s' = _data s ∧ _path s' = _path s ∧ _hash s' = _hash s.
Proof.
  intros Hcal Hi Hw Hch Hlock Hh Hcl Hd Hpos.
  (* while self._changed: ... *)
  set (σ1 := set_caller (Some (i, Closing CloseStop)) (store i s σ)).
  assert (H1 : step hash Main σ = Some (σ1, Tau)).
  { rewrite (step_main _ _ _ _ Hcal Hi). simpl. by rewrite Hch. }
  assert (Hi1 : heap σ1 !! i = Some s) by (by eapply heap_store).
  (* self._running = False *)
  set (s2 := set_running false s).
  set (σ2 := set_caller (Some (i, Closing CloseAcquire)) (store i s2 σ1)).
  assert (H2 : step hash Main σ1 = Some (σ2, Tau)).
  { by rewrite (step_main σ1 i (Closing CloseStop) s eq_refl Hi1). }
  assert (Hi2 : heap σ2 !! i = Some s2) by (by apply (heap_store σ1 i s)).
  (* the writer leaves its loop and releases the lock *)
  set (s3 := set_writer WRelease s2).
  assert (H3 : step hash (Writer i) σ2 = Some (store i s3 σ2, Tau)).
  { apply (step_writer _ _ _ _ _ Hi2). unfold writer_step. simpl. by rewrite Hw. }
  assert (Hi3 : heap (store i s3 σ2) !! i = Some s3) by (by apply (heap_store σ2 i s2)).
  set (s4 := set_writer WExited (set_lock false s3)).
  assert (H4 : step hash (Writer i) (store i s3 σ2) = Some (store i s4 (store i s3 σ2), Tau)).
  { by apply (step_writer _ _ _ _ _ Hi3). }
  set (σ4 := store i s4 (store i s3 σ2)) in *.
  assert (Hi4 : heap σ4 !! i = Some s4) by (by apply (heap_store _ i s3)).
  (* self._shutdown_lock.acquire() *)
  set (s5 := set_lock true s4).
  set (σ5 := set_caller (Some (i, Closing CloseFlush)) (store i s5 σ4)).
  assert (H5 : step hash Main σ4 = Some (σ5, Tau)).
  { rewrite (step_main σ4 i (Closing CloseAcquire) s4 eq_refl Hi4); done. }
  assert (Hi5 : heap σ5 !! i = Some s5) by (by apply (heap_store σ4 i s4)).
  (* self._handle.flush() *)
  destruct (spill (length (h_buf h)) h (disk σ)) as [[fs1 h1]|] eqn:Hs1;
    [|unfold spill in Hs1; by rewrite Hd in Hs1].
  destruct (spill_at_end _ _ _ _ _ _ Hs1 Hd Hpos)
    as (Hp1 & Hc1 & Hb1 & Hd1 & Hpos1 & _).
  rewrite firstn_all in Hd1, Hpos1. rewrite drop_all in Hb1.
  set (s6 := set_handle h1 s5).
  set (σ6 := set_caller (Some (i, Closing CloseHandle)) (store i s6 (set_disk fs1 σ5))).
  assert (H6 : step hash Main σ5 = Some (σ6, Tau)).
  { rewrite (step_main σ5 i (Closing CloseFlush) s5 eq_refl Hi5). simpl. rewrite Hh. simpl.
    unfold handle_flush. rewrite Hcl. simpl in Hs1. by rewrite Hs1. }
  assert (Hi6 : heap σ6 !! i = Some s6) by (by apply (heap_store (set_disk fs1 σ5) i s5)).
  (* self._handle.close() *)
  rewrite <- Hp1 in Hd1.
  destruct (spill (length (h_buf h1)) h1 fs1) as [[fs2 h2]|] eqn:Hs2;
    [|unfold spill in Hs2; by rewrite Hd1 in Hs2].
  destruct (spill_at_end _ _ _ _ _ _ Hs2 Hd1 Hpos1)
    as (Hp2 & Hc2 & Hb2 & Hd2 & Hpos2 & _).
  rewrite Hb1 in Hd2. simpl in Hd2. rewrite app_nil_r in Hd2.
  set (s7 := set_handle (Handle (h_path h2) true (h_buf h2) (h_pos h2)) s6).
  set (σ7 := set_caller (Some (i, Closing CloseDiscard)) (store i s7 (set_disk fs2 σ6))).
  assert (H7 : step hash Main σ6 = Some (σ7, Tau)).
  { rewrite (step_main σ6 i (Closing CloseHandle) s6 eq_refl Hi6). simpl.
    unfold handle_close. rewrite Hc1, Hcl. by rewrite Hs2. }
  assert (Hi7 : heap σ7 !! i = Some s7) by (by apply (heap_store (set_disk fs2 σ6) i s6)).
  (* self.__class__._paths.discard(self._hash) *)
  set (σ8 := set_caller None (store i s7 (set_paths (_paths σ7 ∖ {[ _hash s7 ]}) σ7))).
  assert (H8 : step hash Main σ7 = Some (σ8, Returned)).
  { by rewrite (step_main σ7 i (Closing CloseDiscard) s7 eq_refl Hi7). }
  exists σ8, s7. split_and!; try done.
  - repeat (eapply run_cons_step; [eassumption|]). reflexivity.
  - by apply (heap_store (set_paths (_paths σ7 ∖ {[ _hash s7 ]}) σ7) i s7).
  - simpl. rewrite <- Hp1. by rewrite Hp1, <- Hp1 in Hd2.
Qed.

(** X15. [close()] can always be completed on an open instance with no
    write pending.  From a state reached from start-up in which no call
    is under way, [_changed] is clear and the writer thread stands at its
    [acquire] with the lock free, at the head of its loop or at the test
    of [_changed], there is a schedule on which the call returns.  The
    writer thread has then left its loop and released the lock, the handle
    is closed, the hash of the path has left [_paths], the document in
    memory is as before, and the file holds the payloads written so
    far. *)
Theorem close_completes (ls0 : list (@label Doc)) (fs : filesystem)
    σ evs0 (i : nat) s :
  run hash ls0 (boot fs) = Some (σ, evs0) →
  caller σ = None → heap σ !! i = Some s →
  is_open s = true → _changed s = false →
  (writer s = Some WAcquire ∧ _shutdown_lock s = false) ∨
    writer s = Some WLoop ∨ writer s = Some WTest →
  ∃ ls σ' evs s' p,
    run hash (Call (CClose i) :: ls) σ = Some (σ', evs) ∧
    last evs = Some Returned ∧
    caller σ' = None ∧ heap σ' !! i = Some s' ∧
    is_open s' = false ∧ _running s' = false ∧ writer s' = Some WExited ∧
    _data s' = _data s ∧ _path s = Some p ∧ (hash p ∉ _paths σ') ∧
    disk σ' !! p = Some (File (concat (flushes i evs0))).
Proof.
  intros Hrun Hcal Hi Hopen Hch Hw. apply history_of_run in Hrun.
  pose proof (invariant_reachable hash _ (history_reachable _ _ _ Hrun)) as [Hall _].
  destruct (inv_slots _ _ _ _ (Hall _ _ Hi))
    as (p & m & h & Hp & _ & Hh & Hhp & Hhash & _).
  pose proof (inv_lock _ _ _ _ (Hall _ _ Hi)) as Hlock.
  destruct (history_file _ _ _ Hrun _ _ Hi (or_introl Hopen))
    as (h0 & c & Hh0 & Hd & Hpos & Hcat & _).
  assert (h0 = h) as -> by congruence.
  unfold is_open in Hopen. rewrite Hh in Hopen. apply negb_true_iff in Hopen.
  set (σa := set_caller (Some (i, Closing CloseSpin)) σ).
  assert (Ha : step hash (Call (CClose i)) σ = Some (σa, Tau)).
  { simpl. rewrite Hcal. simpl. by rewrite Hi. }
  assert (Hia : heap σa !! i = Some s) by done.
  assert (Hfrom : ∀ σb sb,
            caller σb = Some (i, Closing CloseSpin) → heap σb !! i = Some sb →
            writer sb = Some WLoop → _changed sb = false → _shutdown_lock sb = true →
            _handle sb = Some h → disk σb = disk σ → _paths σb = _paths σ →
            _data sb = _data s → _hash sb = _hash s →
            ∃ σ' s',
              run hash [Main; Main; Writer i; Writer i; Main; Main; Main; Main] σb
                = Some (σ', [Tau; Tau; Tau; Tau; Tau; Tau; Tau; Returned]) ∧
              caller σ' = None ∧ heap σ' !! i = Some s' ∧
              is_open s' = false ∧ _running s' = false ∧ writer s' = Some WExited ∧
              _data s' = _data s ∧ (hash p ∉ _paths σ') ∧
              disk σ' !! p = Some (File (concat (flushes i evs0)))).
  { intros σb sb Hcb Hib Hwb Hchb Hlb Hhb Hdb Hpb Hdatab Hhashb.
    rewrite <- Hdb in Hd.
    destruct (close_from_spin σb i sb h c Hcb Hib Hwb Hchb Hlb Hhb Hopen Hd Hpos)
      as (σ' & s' & Hr & Hc' & Hi' & Hps & Hd' & Ho' & Hrun' & Hw' & Hdata' & _).
    exists σ', s'. split_and!; try done.
    - congruence.
    - rewrite Hps, Hhashb, Hhash. set_solver.
    - rewrite <- Hhp, Hd', Hcat. done. }
  destruct Hw as [[Hw Hfree]|[Hw|Hw]].
  - (* the writer thread acquires the lock first *)
    set (sb := set_writer WLoop (set_lock true s)).
    assert (Hb : step hash (Writer i) σa = Some (store i sb σa, Tau)).
    { apply (step_writer _ _ _ _ _ Hia). unfold writer_step. by rewrite Hw, Hfree. }
    destruct (Hfrom (store i sb σa) sb) as (σ' & s' & Hr & Hc' & Hi' & Ho' & Hrun' & Hw' & Hdata' & Hps' & Hd');
      try done.
    { by eapply heap_store. }
    eexists (Writer i :: [Main; Main; Writer i; Writer i; Main; Main; Main; Main]),
            σ', _, s', p.
    split; [eapply run_cons_step; [exact Ha|];
            eapply run_cons_step; [exact Hb|]; exact Hr|].
    by split_and!.
  - destruct (Hfrom σa s) as (σ' & s' & Hr & Hc' & Hi' & Ho' & Hrun' & Hw' & Hdata' & Hps' & Hd');
      try done.
    { apply Hlock. by rewrite Hw. }
    eexists [Main; Main; Writer i; Writer i; Main; Main; Main; Main], σ', _, s', p.
    split; [eapply run_cons_step; [exact Ha|]; exact Hr|].
    by split_and!.
  - (* the writer thread finds [_changed] clear *)
    set (sb := set_writer WLoop s).
    assert (Hb : step hash (Writer i) σa = Some (store i sb σa, Tau)).
    { apply (step_writer _ _ _ _ _ Hia). unfold writer_step. by rewrite Hw, Hch. }
    destruct (Hfrom (store i sb σa) sb) as (σ' & s' & Hr & Hc' & Hi' & Ho' & Hrun' & Hw' & Hdata' & Hps' & Hd');
      try done.
    { by eapply heap_store. }
    { simpl. apply Hlock. by rewrite Hw. }
    eexists (Writer i :: [Main; Main; Writer i; Writer i; Main; Main; Main; Main]),
            σ', _, s', p.
    split; [eapply run_cons_step; [exact Ha|];
            eapply run_cons_step; [exact Hb|]; exact Hr|].
    by split_and!.
Qed.

(** X16. A raised [_changed] flag is served by the writer thread in one
    pass of its loop: with [_running] set, the handle open and a document
    that [dumps] and [compress] accept, four statements of the writer
    (loop test, flag test, clearing of the flag, write) hand the payload
    [compress(dumps(_data))] to the handle, behind what it buffers; the
    flag is clear afterwards, the writer is back at the head of its loop,
    and the file system is not touched. *)
Theorem pending_write_is_flushed σ (i : nat) s (h : handle) (v : option Doc)
    (b : bytes) :
  heap σ !! i = Some s → writer s = Some WLoop →
  _running s = true → _changed s = true →
  _handle s = Some h → h_closed h = false →
  _data s = Some v → encode v = Some b →
  ∃ σ' s',
    run hash [Writer i; Writer i; Writer i; Writer i] σ
      = Some (σ', [Tau; Tau; Tau; Flushed i b]) ∧
    heap σ' !! i = Some s' ∧
    _changed s' = false ∧ writer s' = Some WLoop ∧
    _handle s' = Some (handle_write b h) ∧ _data s' = Some v ∧
    disk σ' = disk σ ∧ caller σ' = caller σ ∧ _paths σ' = _paths σ.
Proof.
  intros Hi Hw Hrun Hch Hh Hcl Hv Hb.
  set (s1 := set_writer WTest s).
  assert (H1 : step hash (Writer i) σ = Some (store i s1 σ, Tau)).
  { apply (step_writer _ _ _ _ _ Hi). unfold writer_step. by rewrite Hw, Hrun. }
  assert (Hi1 : heap (store i s1 σ) !! i = Some s1) by (by eapply heap_store).
  set (s2 := set_writer WClear s1).
  assert (H2 : step hash (Writer i) (store i s1 σ) = Some (store i s2 (store i s1 σ), Tau)).
  { apply (step_writer _ _ _ _ _ Hi1). unfold writer_step. simpl. by rewrite Hch. }
  set (σ2 := store i s2 (store i s1 σ)) in *.
  assert (Hi2 : heap σ2 !! i = Some s2) by (by eapply heap_store).
  set (s3 := set_writer WFlush (set_changed false s2)).
  assert (H3 : step hash (Writer i) σ2 = Some (store i s3 σ2, Tau)).
  { by apply (step_writer _ _ _ _ _ Hi2). }
  assert (Hi3 : heap (store i s3 σ2) !! i = Some s3) by (by eapply heap_store).
  set (s4 := set_writer WLoop (set_handle (handle_write b h) s3)).
  assert (H4 : step hash (Writer i) (store i s3 σ2)
               = Some (store i s4 (store i s3 σ2), Flushed i b)).
  { apply (step_writer _ _ _ _ _ Hi3). unfold writer_step. simpl.
    by rewrite Hh, Hv, Hb, Hcl. }
  exists (store i s4 (store i s3 σ2)), s4. split_and!; try done.
  - repeat (eapply run_cons_step; [eassumption|]). reflexivity.
  - by eapply heap_store.
Qed.

End Further.

(** * The claims on concrete runs *)

Section Runs.
Import Demo.

Lemma run_after (ls : list (@label bytes)) (fs : filesystem) :
  is_Some (run demo_hash ls (boot fs)) →
  run demo_hash ls (boot fs) = Some (after ls fs, events ls fs).
Proof.
  unfold after, events. intros [[σ evs] ->]. reflexivity.
Defined.

Lemma reachable_after (ls : list (@label bytes)) (fs : filesystem) :
  is_Some (run demo_hash ls (boot fs)) → reachable demo_hash (after ls fs).
Proof.
  intros Hrun. eapply reachable_run; [apply reachable_boot|].
  by apply run_after.
Defined.

(** C1. A document is written and the instance is closed: the file then
    holds [compress(dumps(D1))], which decodes to [D1].  Constructing an
    instance on the same path again opens the file with ['wb'], which
    empties it, before [load] reads it: the new instance reads [None],
    not [D1], and the stored bytes are gone. *)
Theorem reopening_forgets_the_document :
  ∃ σ1 evs1 σ2 s,
    run demo_hash one_write (boot ∅) = Some (σ1, evs1) ∧
    caller σ1 = None ∧
    disk σ1 !! db = Some (File [Byte.x02; Byte.x7b; Byte.x31; Byte.x7d]) ∧
    decode [Byte.x02; Byte.x7b; Byte.x31; Byte.x7d] = Some D1 ∧
    step demo_hash (Call (COpen db "r")) σ1 = Some (σ2, Returned) ∧
    heap σ2 !! 1 = Some s ∧
    read s = Ret None ∧ D1 ≠ None ∧
    disk σ2 !! db = Some (File []).
Proof.
  exists (after one_write ∅), (events one_write ∅),
         (after (one_write ++ [Call (COpen db "r")]) ∅),
         (instance 1 (after (one_write ++ [Call (COpen db "r")]) ∅)).
  split_and!; try (vm_compute; reflexivity). discriminate.
Qed.

(** C2. After two writes, each followed by a flush, and [close], the file
    holds the bytes of the first flush followed by those of the second:
    [handle.write] continues where the previous write ended, the file is
    not replaced by [compress(dumps(D2))]. *)
Theorem second_flush_is_appended :
  ∃ σ evs c1 c2,
    encode D1 = Some c1 ∧ encode D2 = Some c2 ∧
    run demo_hash two_writes (boot ∅) = Some (σ, evs) ∧
    flushes 0 evs = [c1; c2] ∧
    disk σ !! db = Some (File (c1 ++ c2)) ∧
    c1 ++ c2 ≠ c2.
Proof.
  exists (after two_writes ∅), (events two_writes ∅),
         [Byte.x02; Byte.x7b; Byte.x31; Byte.x7d],
         [Byte.x02; Byte.x7b; Byte.x32; Byte.x32; Byte.x7d].
  split_and!; try (vm_compute; reflexivity). discriminate.
Qed.

(** C3, counterexample. Python's [None] was written, flushed and, by
    [close], brought to the file, which holds the five bytes of a stored
    [null]; the document in memory is [D1].  [load()] returns and the
    document is [None], although the file is not empty. *)
Lemma load_of_stored_null_is_none :
  ∃ σ evs s σ' s',
    run demo_hash stored_null (boot ∅) = Some (σ, evs) ∧
    heap σ !! 0 = Some s ∧ read s = Ret D1 ∧
    disk σ !! db = Some (File (Byte.x02 :: null)) ∧
    Byte.x02 :: null ≠ [] ∧
    step demo_hash (Call (CLoad 0)) σ = Some (σ', Returned) ∧
    heap σ' !! 0 = Some s' ∧ read s' = Ret None.
Proof.
  exists (after stored_null ∅), (events stored_null ∅),
         (instance 0 (after stored_null ∅)),
         (after (stored_null ++ [Call (CLoad 0)]) ∅),
         (instance 0 (after (stored_null ++ [Call (CLoad 0)]) ∅)).
  split_and!; try (vm_compute; reflexivity). discriminate.
Qed.

(** C3, witness: the same state, where the file holds a stored [null]. *)
Lemma load_by_file_content_witness :
  step demo_hash (Call (CLoad 0)) (after stored_null ∅)
    = Some (store 0 (set_data None (instance 0 (after stored_null ∅)))
              (after stored_null ∅), Returned).
Proof.
  set (σ := after stored_null ∅). set (s := instance 0 σ).
  assert (Hcal : caller σ = None) by (vm_compute; reflexivity).
  assert (Hi : heap σ !! 0 = Some s) by (vm_compute; reflexivity).
  assert (Hp : _path s = Some db) by (vm_compute; reflexivity).
  assert (Hst : stat (disk σ) db = Some (File (Byte.x02 :: null)))
    by (vm_compute; reflexivity).
  destruct (load_by_file_content demo_hash σ 0 s db (Byte.x02 :: null) Hcal Hi Hp Hst)
    as (_ & Hsome & _ & _).
  apply Hsome; [discriminate|vm_compute; reflexivity].
Defined.

(** C4, witness: nothing exists at start-up on an empty file system. *)
Lemma open_missing_read_only_witness :
  ∃ σ', step demo_hash (Call (COpen db "r")) (boot ∅)
          = Some (σ', Raised (AttributeError_slot "_handle")) ∧
        demo_hash db ∈ _paths σ' ∧ heap σ' = heap (boot ∅) ∧
        disk σ' = disk (@boot bytes ∅).
Proof.
  apply (open_missing_read_only demo_hash (boot ∅) db).
  - reflexivity.
  - apply not_elem_of_empty.
  - reflexivity.
Defined.

(** C5, witness: the access mode ["w"] is refused. *)
Lemma failed_open_keeps_registry_entry_witness :
  step demo_hash (Call (COpen db "w")) (@boot bytes ∅)
    = Some (set_paths (_paths (@boot bytes ∅) ∪ {[ demo_hash db ]}) (boot ∅),
            Raised (AttributeError_slot "_handle")).
Proof.
  apply (failed_open_keeps_registry_entry demo_hash (boot ∅) db "w").
  - reflexivity.
  - apply not_elem_of_empty.
  - left. reflexivity.
Defined.

(** C6, witness: an instance opened with ["r+"]. *)
Lemma write_guard_and_effect_witness :
  ∃ s', write D1 (instance 0 (after open_rw ∅)) = Ret s' ∧
        _data s' = Some D1 ∧ _changed s' = true.
Proof.
  set (σ := after open_rw ∅). set (s := instance 0 σ).
  assert (Hcal : caller σ = None) by (vm_compute; reflexivity).
  assert (Hi : heap σ !! 0 = Some s) by (vm_compute; reflexivity).
  assert (Hm : _access_mode s = Some "r+") by (vm_compute; reflexivity).
  destruct (write_guard_and_effect demo_hash σ 0 s "r+" D1 Hcal Hi Hm) as [_ Hrw].
  destruct (proj1 (Hrw eq_refl)) as (s' & Hw & Hd & Hc & _).
  exists s'. by split_and!.
Defined.


(** C7, the disk write.  The document is serialised and compressed, and
    the write raises [OSError]: again [_changed] is cleared, the writer
    thread is dead, no call of the caller has raised, nothing has reached
    the handle or the file, and the writer takes no further step. *)
Lemma refused_write_is_dropped :
  ∃ σ evs s,
    run demo_hash refused_flush (boot ∅) = Some (σ, evs) ∧
    heap σ !! 0 = Some s ∧
    last evs = Some (Crashed 0 OSError) ∧
    _changed s = false ∧
    writer s = Some (WCrashed OSError) ∧
    _handle s = Some (Handle db false [] 0) ∧
    disk σ !! db = Some (File []) ∧
    Forall (λ ev, match ev with Raised _ => False | _ => True end) evs ∧
    step demo_hash (Writer 0) σ = None.
Proof.
  exists (after refused_flush ∅), (events refused_flush ∅),
         (instance 0 (after refused_flush ∅)).
  split_and!; try (vm_compute; reflexivity).
  vm_compute. repeat constructor.
Qed.

(** C7, a write in between.  When [write] is called between the
    clearing of [_changed] and the failing statement, the flag is set
    when the writer thread dies, and it is never cleared again. *)
Lemma overtaken_flush_leaves_flag :
  ∃ σ evs s,
    run demo_hash overtaken_flush (boot ∅) = Some (σ, evs) ∧
    heap σ !! 0 = Some s ∧
    last evs = Some (Crashed 0 CodecError) ∧
    _changed s = true ∧
    writer s = Some (WCrashed CodecError) ∧
    step demo_hash (Writer 0) σ = None.
Proof.
  exists (after overtaken_flush ∅), (events overtaken_flush ∅),
         (instance 0 (after overtaken_flush ∅)).
  split_and!; vm_compute; reflexivity.
Qed.


(** C8, witness: [close] before its last statement; afterwards the path
    can be opened again. *)
Lemma one_open_session_per_path_witness :
  ∃ σ1, step demo_hash Main (after one_write_closing ∅) = Some (σ1, Returned) ∧
        (demo_hash db ∉ _paths σ1) ∧
        ∃ σ2 s2, step demo_hash (Call (COpen db "r")) σ1 = Some (σ2, Returned) ∧
                 heap σ2 !! length (heap σ1) = Some s2 ∧
                 _path s2 = Some db ∧ _access_mode s2 = Some "r" ∧
                 is_open s2 = true.
Proof.
  set (σ := after one_write_closing ∅). set (s := instance 0 σ).
  assert (Hr : reachable demo_hash σ).
  { apply reachable_after. vm_compute. eexists. reflexivity. }
  assert (Hcal : caller σ = Some (0, Closing CloseDiscard)) by (vm_compute; reflexivity).
  assert (Hi : heap σ !! 0 = Some s) by (vm_compute; reflexivity).
  assert (Hp : _path s = Some db) by (vm_compute; reflexivity).
  destruct (one_open_session_per_path demo_hash σ Hr) as (_ & _ & Hclose).
  destruct (Hclose 0 s db Hcal Hi Hp) as (σ1 & Hstep & Hout & Hopen).
  exists σ1. split_and!; [done|done|]. apply Hopen. reflexivity.
Defined.

(** C9, counterexample. An existing store is opened with ["r"]: the
    writer thread is started, acquires the lock and runs its loop; and
    the byte that the file held is gone. *)
Lemma read_only_session_runs_the_writer :
  ∃ σ evs s,
    disk (@boot bytes existing) !! db = Some (File [Byte.x41]) ∧
    run demo_hash read_only_open (boot existing) = Some (σ, evs) ∧
    evs = [Returned; Tau; Tau; Tau] ∧
    heap σ !! 0 = Some s ∧
    _access_mode s = Some "r" ∧
    writer s = Some WLoop ∧ _shutdown_lock s = true ∧
    disk σ !! db = Some (File []).
Proof.
  exists (after read_only_open existing), (events read_only_open existing),
         (instance 0 (after read_only_open existing)).
  split_and!; vm_compute; reflexivity.
Qed.

(** C9, witness: the same instance never has [_changed] set. *)
Lemma writer_started_in_every_mode_witness :
  _changed (instance 0 (after read_only_open existing)) = false ∧
  ∀ ls σ' evs,
    run demo_hash ls (after read_only_open existing) = Some (σ', evs) →
    ∀ b, Flushed 0 b ∉ evs.
Proof.
  set (σ := after read_only_open existing). set (s := instance 0 σ).
  assert (Hr : reachable demo_hash σ).
  { apply reachable_after. vm_compute. eexists. reflexivity. }
  assert (Hi : heap σ !! 0 = Some s) by (vm_compute; reflexivity).
  assert (Hm : _access_mode s ≠ Some "r+") by (vm_compute; discriminate).
  exact (proj2 (writer_started_in_every_mode demo_hash σ) Hr 0 s Hi Hm).
Defined.

(** C10, witness: [close] before its last statement, on an instance
    opened with ["r+"]; [D2] is written after [close] has returned. *)
Lemma write_after_close_is_lost_witness :
  ∃ σ1,
    step demo_hash Main (after one_write_closing ∅) = Some (σ1, Returned) ∧
    (∃ σ2 σ3 s3,
       step demo_hash (Call (CWrite 0 D2)) σ1 = Some (σ2, Tau) ∧
       step demo_hash Main σ2 = Some (σ3, Returned) ∧
       heap σ3 !! 0 = Some s3 ∧ _data s3 = Some D2 ∧ _changed s3 = true) ∧
    (∀ ls σ' evs,
       run demo_hash ls σ1 = Some (σ', evs) →
       (∀ b, Flushed 0 b ∉ evs) ∧
       ∃ s' h, heap σ' !! 0 = Some s' ∧ _handle s' = Some h ∧ h_closed h = true).
Proof.
  set (σ := after one_write_closing ∅). set (s := instance 0 σ).
  assert (Hr : reachable demo_hash σ).
  { apply reachable_after. vm_compute. eexists. reflexivity. }
  assert (Hcal : caller σ = Some (0, Closing CloseDiscard)) by (vm_compute; reflexivity).
  assert (Hi : heap σ !! 0 = Some s) by (vm_compute; reflexivity).
  assert (Hm : _access_mode s = Some "r+") by (vm_compute; reflexivity).
  exact (write_after_close_is_lost demo_hash σ 0 s D2 Hr Hcal Hi Hm).
Defined.

End Runs.

(** * The further properties on concrete runs *)

Section FurtherRuns.
Import Demo.

(** X1, witness: the store is opened on an empty file system. *)
Lemma construction_result_witness :
  heap (after [Call (COpen db "r+")] ∅) = [constructed demo_hash db "r+"] ∧
  disk (after [Call (COpen db "r+")] ∅) !! db = Some (File []).
Proof.
  destruct (construction_result demo_hash (boot ∅) (after [Call (COpen db "r+")] ∅)
              db "r+") as (Hheap & Hdisk & _).
  - vm_compute. reflexivity.
  - split; [exact Hheap|exact Hdisk].
Defined.

(** X2, witness: neither the store nor its directory exists. *)
Lemma construction_creates_store_witness :
  ∃ σ', step demo_hash (Call (COpen db "r+")) (@boot bytes ∅) = Some (σ', Returned) ∧
        stat (disk σ') db = Some (File []).
Proof.
  destruct (construction_creates_store demo_hash (boot ∅) db
              (mkdir_parents (parent db) ∅).1) as (σ' & Hstep & _ & Hst & _).
  - reflexivity.
  - apply not_elem_of_empty.
  - reflexivity.
  - vm_compute. reflexivity.
  - exists σ'. split; [exact Hstep|exact Hst].
Defined.

(** X3, witness: an instance that was just opened. *)
Lemma read_and_load_never_miss_witness :
  ∃ v, read (instance 0 (after open_rw ∅)) = Ret v.
Proof.
  refine (proj1 (read_and_load_never_miss demo_hash (after open_rw ∅) 0
                   (instance 0 (after open_rw ∅)) _ _)).
  - apply reachable_after. vm_compute. eexists. reflexivity.
  - vm_compute. reflexivity.
Defined.

(** X4, witness: the writer dies on a value that cannot be serialised. *)
Lemma writer_dies_of_codec_or_device_witness :
  (@Writer bytes 0 = Writer 0 ∧ CodecError = CodecError) ∨
  (@Writer bytes 0 = Refuse 0 ∧ CodecError = OSError).
Proof.
  refine (writer_dies_of_codec_or_device demo_hash
            (after (before_failing_flush ++ [Writer 0]) ∅) (after failing_flush ∅)
            (Writer 0) 0 CodecError _ _).
  - apply reachable_after. vm_compute. eexists. reflexivity.
  - vm_compute. reflexivity.
Defined.

(** X5, witness: the last statement of [close]. *)
Lemma running_is_terminal_witness :
  ∃ s', heap (after one_write ∅) !! 0 = Some s' ∧ _running s' = false.
Proof.
  refine (running_is_terminal demo_hash [Main] (after one_write_closing ∅)
            (after one_write ∅) [Returned] 0
            (instance 0 (after one_write_closing ∅)) _ _ _);
    vm_compute; reflexivity.
Defined.

(** X6, witness: the writer of an open instance, twice round its loop. *)
Lemma idle_writer_spins_witness :
  run demo_hash (concat (replicate 2 [Writer 0; Writer 0])) (after open_rw ∅)
    = Some (after open_rw ∅, concat (replicate 2 [Tau; Tau])).
Proof.
  apply (idle_writer_spins demo_hash (after open_rw ∅) 0
           (instance 0 (after open_rw ∅)) 2); vm_compute; reflexivity.
Defined.

(** X7, witness: the writer died on a value that cannot be serialised;
    [close] is called and stops at the acquisition of the lock. *)
Lemma dead_writer_blocks_close_witness :
  ∃ s', heap (after (failing_flush ++ [Call (CClose 0); Main; Main]) ∅) !! 0 = Some s' ∧
        is_open s' = true ∧
        step demo_hash Main (after (failing_flush ++ [Call (CClose 0); Main; Main]) ∅)
          = None.
Proof.
  assert (Hr : reachable demo_hash (after failing_flush ∅)).
  { apply reachable_after. vm_compute. eexists. reflexivity. }
  assert (Hi : heap (after failing_flush ∅) !! 0
               = Some (instance 0 (after failing_flush ∅))) by (vm_compute; reflexivity).
  assert (Hw : writer (instance 0 (after failing_flush ∅)) = Some (WCrashed CodecError))
    by (vm_compute; reflexivity).
  assert (Hrun : run demo_hash [Call (CClose 0); Main; Main] (after failing_flush ∅)
                 = Some (after (failing_flush ++ [Call (CClose 0); Main; Main]) ∅,
                         [Tau; Tau; Tau])) by (vm_compute; reflexivity).
  destruct (dead_writer_blocks_close demo_hash (after failing_flush ∅) 0
              (instance 0 (after failing_flush ∅)) CodecError Hr Hi Hw _ _ _ Hrun)
    as (s' & Hi' & Hopen & _ & _ & Hblocked).
  exists s'. split_and!; [assumption|assumption|].
  apply Hblocked. vm_compute. reflexivity.
Defined.

(** X8, witness: [write] on an instance that was closed. *)
Lemma closed_instance_stays_closed_witness :
  ∃ s', heap (after (one_write ++ write_call 0 D2) ∅) !! 0 = Some s' ∧
        is_open s' = false.
Proof.
  destruct (closed_instance_stays_closed demo_hash (write_call 0 D2)
              (after one_write ∅) (after (one_write ++ write_call 0 D2) ∅)
              [Tau; Returned] 0 (instance 0 (after one_write ∅)))
    as (s' & Hi & Hopen & _).
  - apply reachable_after. vm_compute. eexists. reflexivity.
  - vm_compute. reflexivity.
  - vm_compute. reflexivity.
  - intros ph. vm_compute. discriminate.
  - vm_compute. reflexivity.
  - exists s'. split; assumption.
Defined.

(** X9, witness: the access mode ["w"] is refused, then ["r+"] on the
    same path. *)
Lemma failed_construction_locks_path_witness :
  step demo_hash (Call (COpen db "r+")) (after [Call (COpen db "w")] ∅)
    = Some (after [Call (COpen db "w")] ∅, Raised AttributeError_exists).
Proof.
  assert (Hstep : step demo_hash (Call (COpen db "w")) (@boot bytes ∅)
                    = Some (after [Call (COpen db "w")] ∅,
                            Raised (AttributeError_slot "_handle")))
    by (vm_compute; reflexivity).
  assert (He : AttributeError_slot "_handle" ≠ AttributeError_exists) by discriminate.
  destruct (failed_construction_locks_path demo_hash (boot ∅)
              (after [Call (COpen db "w")] ∅) db "w" (AttributeError_slot "_handle")
              (reachable_boot _ ∅) Hstep He [] (after [Call (COpen db "w")] ∅) []
              eq_refl)
    as [_ Hagain].
  apply Hagain. vm_compute. reflexivity.
Defined.

(** X10, witness: two writes, each flushed. *)
Lemma flushes_bounded_by_writes_witness :
  (length (flushes 0 (events two_writes ∅)) ≤ writes 0 two_writes)%nat.
Proof.
  apply (flushes_bounded_by_writes demo_hash two_writes ∅ (after two_writes ∅)).
  apply run_after. vm_compute. eexists. reflexivity.
Defined.

(** X11, witness: one write, flushed, the instance still open. *)
Lemma file_holds_flushed_payloads_witness :
  ∃ c, disk (after (open_rw ++ write_call 0 D1 ++ flush_cycle 0) ∅) !! db
         = Some (File c) ∧
       c ++ [Byte.x02; Byte.x7b; Byte.x31; Byte.x7d]
         = concat (flushes 0 (events (open_rw ++ write_call 0 D1 ++ flush_cycle 0) ∅)).
Proof.
  refine (proj2 (file_holds_flushed_payloads demo_hash
                   (open_rw ++ write_call 0 D1 ++ flush_cycle 0) ∅
                   (after (open_rw ++ write_call 0 D1 ++ flush_cycle 0) ∅)
                   (events (open_rw ++ write_call 0 D1 ++ flush_cycle 0) ∅) 0
                   (instance 0 (after (open_rw ++ write_call 0 D1 ++ flush_cycle 0) ∅))
                   (Handle db false [Byte.x02; Byte.x7b; Byte.x31; Byte.x7d] 0)
                   _ _ _ _)).
  - apply run_after. vm_compute. eexists. reflexivity.
  - vm_compute. reflexivity.
  - vm_compute. reflexivity.
  - reflexivity.
Defined.

(** X12, witness: one write, flushed. *)
Lemma last_payload_is_document_witness :
  (flushes 0 (events (open_rw ++ write_call 0 D1 ++ flush_cycle 0) ∅) = [] ∧
   _data (instance 0 (after (open_rw ++ write_call 0 D1 ++ flush_cycle 0) ∅))
     = Some None) ∨
  (∃ v b,
     _data (instance 0 (after (open_rw ++ write_call 0 D1 ++ flush_cycle 0) ∅))
       = Some v ∧
     encode v = Some b ∧
     last (flushes 0 (events (open_rw ++ write_call 0 D1 ++ flush_cycle 0) ∅))
       = Some b).
Proof.
  apply (last_payload_is_document demo_hash
           (open_rw ++ write_call 0 D1 ++ flush_cycle 0) ∅
           (after (open_rw ++ write_call 0 D1 ++ flush_cycle 0) ∅)).
  - apply run_after. vm_compute. eexists. reflexivity.
  - repeat constructor.
  - vm_compute. reflexivity.
  - split_and!.
    + vm_compute. reflexivity.
    + vm_compute. discriminate.
    + vm_compute. discriminate.
    + intros e. vm_compute. discriminate.
Defined.

(** X13, witness: one write, then [close] up to its last statement. *)
Lemma close_leaves_payloads_witness :
  ∃ σ' p h,
    step demo_hash Main (after one_write_closing ∅) = Some (σ', Returned) ∧
    _path (instance 0 (after one_write_closing ∅)) = Some p ∧
    _handle (instance 0 (after one_write_closing ∅)) = Some h ∧
    h_closed h = true ∧
    disk σ' !! p = Some (File (concat (flushes 0 (events one_write_closing ∅)))).
Proof.
  destruct (close_leaves_payloads demo_hash one_write_closing ∅
              (after one_write_closing ∅) (events one_write_closing ∅) 0
              (instance 0 (after one_write_closing ∅)))
    as (σ' & p & h & Hstep & _ & _ & _ & Hp & Hh & _ & Hc & _ & Hd).
  - apply run_after. vm_compute. eexists. reflexivity.
  - vm_compute. reflexivity.
  - vm_compute. reflexivity.
  - exists σ', p, h. split_and!; assumption.
Defined.

(** X14, witness: [D1] is written once, and read back from the file. *)
Lemma single_write_round_trip_witness :
  load (disk (after one_write_closing ∅)) (instance 0 (after one_write_closing ∅))
    = Ret (set_data D1 (instance 0 (after one_write_closing ∅))).
Proof.
  apply (single_write_round_trip demo_hash one_write_closing ∅
           (after one_write_closing ∅) (events one_write_closing ∅) 0
           (instance 0 (after one_write_closing ∅)) D1
           [Byte.x02; Byte.x7b; Byte.x31; Byte.x7d]).
  - apply run_after. vm_compute. eexists. reflexivity.
  - vm_compute. reflexivity.
  - vm_compute. reflexivity.
  - vm_compute. lia.
  - repeat constructor.
  - vm_compute. reflexivity.
  - vm_compute. reflexivity.
  - discriminate.
  - vm_compute. reflexivity.
Defined.

(** X15, witness: an instance that was just opened is closed. *)
Lemma close_completes_witness :
  ∃ ls σ' evs s',
    run demo_hash (Call (CClose 0) :: ls) (after open_rw ∅) = Some (σ', evs) ∧
    last evs = Some Returned ∧ heap σ' !! 0 = Some s' ∧ is_open s' = false.
Proof.
  destruct (close_completes demo_hash open_rw ∅ (after open_rw ∅) (events open_rw ∅) 0
              (instance 0 (after open_rw ∅)))
    as (ls & σ' & evs & s' & p & Hrun & Hlast & _ & Hi & Hopen & _).
  - apply run_after. vm_compute. eexists. reflexivity.
  - vm_compute. reflexivity.
  - vm_compute. reflexivity.
  - vm_compute. reflexivity.
  - vm_compute. reflexivity.
  - right. left. vm_compute. reflexivity.
  - exists ls, σ', evs, s'. split_and!; assumption.
Defined.

(** X16, witness: [D1] was written and the writer has not looked yet. *)
Lemma pending_write_is_flushed_witness :
  ∃ σ' s',
    run demo_hash [Writer 0; Writer 0; Writer 0; Writer 0]
        (after (open_rw ++ write_call 0 D1) ∅)
      = Some (σ', [Tau; Tau; Tau; Flushed 0 [Byte.x02; Byte.x7b; Byte.x31; Byte.x7d]]) ∧
    heap σ' !! 0 = Some s' ∧ _changed s' = false.
Proof.
  destruct (pending_write_is_flushed demo_hash (after (open_rw ++ write_call 0 D1) ∅) 0
              (instance 0 (after (open_rw ++ write_call 0 D1) ∅))
              (Handle db false [] 0) D1 [Byte.x02; Byte.x7b; Byte.x31; Byte.x7d])
    as (σ' & s' & Hrun & Hi & Hch & _); try (vm_compute; reflexivity).
  exists σ', s'. split_and!; assumption.
Defined.

End FurtherRuns.
